(** * ol.TileQueue: bounded, priority-ordered tile loading

    A shallow embedding of [src/ol/tilequeue.js] (the tile queue that sits on
    top of [ol.structs.PriorityQueue]) and the properties of its admission
    control: the drain pass [loadMoreTiles_], [enqueue], the change handler
    [handleTileChange] and the budget setter [loadMoreTiles].

    JavaScript numbers that count things (tiles loading, budgets, new loads)
    are integers [Z]; objects that are shared by reference (tiles, the event
    registry) live in an explicit store [Env] that every method threads.

    The second part embeds, from the feature format module (ol/format/Feature),
    the options of a read ([getReadOptions], [adaptOptions]) and the
    wrapping of a longitude ([wrapped], in its two versions). *)

From stdpp Require Import base numbers option list gmap strings.
From Stdlib Require Import QArith Qround Lqa.

Open Scope Z_scope.

(** ** Outcomes of a call: normal return, a thrown error, or no more fuel *)

Inductive Exn : Type :=
| EmptyQueueError.

Inductive Outcome (A : Type) : Type :=
| Done (a : A)
| Throw (e : Exn)
| OutOfFuel.

Arguments Done {A} a.
Arguments Throw {A} e.
Arguments OutOfFuel {A}.

Global Instance Outcome_bind : MBind Outcome := fun A B k m =>
  match m with
  | Done a => k a
  | Throw e => Throw e
  | OutOfFuel => OutOfFuel
  end.

(** ** Tiles, elements, priorities *)

(** [ol.TileState]. *)
Inductive TileState : Type := IDLE | LOADING | LOADED | ERROR | EMPTY.

Global Instance TileState_eq_dec : EqDecision TileState.
Proof. solve_decision. Defined.

(** A tile is an object; a reference to it is its identity. *)
Definition TileRef : Type := nat.

(** The key of a queued element ([tile.getKey()]). *)
Definition Key : Type := nat.

(** Identity of a queue object (the [this] a listener is registered with). *)
Definition QueueId : Type := nat.

(** The queued array [[tile, tileSourceKey, tileCenter, tileResolution]]:
    [element[0]] is the tile, the remaining entries are only ever handed to
    the priority function. *)
Record Element : Type := mkElement {
  el_tile : TileRef;
  el_args : list Z
}.

Global Instance Element_eq_dec : EqDecision Element.
Proof. solve_decision. Defined.

(** Modelled from the spec: the tile class is not part of the sources at
    hand.  [getKey] is the tile's own stable identifier. *)
Definition Tile_getKey (t : TileRef) : Key := t.

(** ** ol.structs.PriorityQueue *)

Module PriorityQueue.

(** Modelled from the spec: the value a priority function returns, a number
    or the sentinel [DROP] ([ol.structs.PriorityQueue.DROP]), which no
    element can legitimately produce and which orders after every number.
    Priorities are only ever compared with each other and with [DROP];
    integers stand for the numbers. *)
Inductive Priority : Type :=
| Num (p : Z)
| DROP.

Global Instance Priority_eq_dec : EqDecision Priority.
Proof. solve_decision. Defined.

Definition ltb (a b : Priority) : bool :=
  match a, b with
  | Num x, Num y => (x <? y)%Z
  | Num _, DROP => true
  | DROP, _ => false
  end.

(** Modelled from the spec: the heap class itself is not part of the
    sources at hand.  Two index-aligned sequences [elements_] and
    [priorities_], and the map from a key to the slot that holds it. *)
Record t : Type := mk {
  priorityFunction_ : Element -> Priority;
  keyFunction_ : Element -> Key;
  elements_ : list Element;
  priorities_ : list Priority;
  indexMap_ : gmap Key nat
}.

(** Modelled from the spec: construction, an empty heap. *)
Definition new (priorityFunction : Element -> Priority)
    (keyFunction : Element -> Key) : t :=
  {| priorityFunction_ := priorityFunction;
     keyFunction_ := keyFunction;
     elements_ := [];
     priorities_ := [];
     indexMap_ := ∅ |}.

(** Modelled from the spec: the queued count. *)
Definition getCount (q : t) : nat := length (elements_ q).

(** Modelled from the spec: exchange of two slots; the index map "must be
    updated on every swap". *)
Definition swap_ (q : t) (i j : nat) : t :=
  match elements_ q !! i, elements_ q !! j,
        priorities_ q !! i, priorities_ q !! j with
  | Some ei, Some ej, Some pi, Some pj =>
      {| priorityFunction_ := priorityFunction_ q;
         keyFunction_ := keyFunction_ q;
         elements_ := <[i := ej]> (<[j := ei]> (elements_ q));
         priorities_ := <[i := pj]> (<[j := pi]> (priorities_ q));
         indexMap_ := <[keyFunction_ q ej := i]>
                        (<[keyFunction_ q ei := j]> (indexMap_ q)) |}
  | _, _, _, _ => q
  end.

Definition priorityAt (q : t) (i : nat) : Priority :=
  default DROP (priorities_ q !! i).

(** Modelled from the spec: "sifts up to restore heap order" — the slot
    [i] moves towards the root while it is more urgent than its parent. *)
Fixpoint siftUp_ (fuel : nat) (q : t) (i : nat) : t :=
  match fuel with
  | O => q
  | S fuel' =>
      if (i =? 0)%nat then q
      else
        let parent := ((i - 1) / 2)%nat in
        if ltb (priorityAt q i) (priorityAt q parent)
        then siftUp_ fuel' (swap_ q i parent) parent
        else q
  end.

(** Modelled from the spec: "sifts the new root down to restore heap
    order" — the slot [i] is exchanged with its more urgent child while
    one of them is more urgent than it. *)
Fixpoint siftDown_ (fuel : nat) (q : t) (i : nat) : t :=
  match fuel with
  | O => q
  | S fuel' =>
      let n := getCount q in
      let l := (2 * i + 1)%nat in
      let r := (2 * i + 2)%nat in
      let m := if (l <? n)%nat && ltb (priorityAt q l) (priorityAt q i)
               then l else i in
      let m := if (r <? n)%nat && ltb (priorityAt q r) (priorityAt q m)
               then r else m in
      if (m =? i)%nat then q
      else siftDown_ fuel' (swap_ q i m) m
  end.

(** Modelled from the spec: [enqueue(element)] "computes key =
    keyFn(element).  If key already present among queued elements, no-op.
    Otherwise appends to the end of the backing sequences and sifts up to
    restore heap order; registers key in the index map." *)
Definition enqueue (q : t) (element : Element) : t :=
  let key := keyFunction_ q element in
  match indexMap_ q !! key with
  | Some _ => q
  | None =>
      let n := getCount q in
      let q' :=
        {| priorityFunction_ := priorityFunction_ q;
           keyFunction_ := keyFunction_ q;
           elements_ := elements_ q ++ [element];
           priorities_ := priorities_ q ++ [priorityFunction_ q element];
           indexMap_ := <[key := n]> (indexMap_ q) |} in
      siftUp_ (S n) q' n
  end.

(** Modelled from the spec: [dequeue()] "fails with EmptyQueueError if
    count is 0.  Otherwise swaps root with last element, shrinks the
    sequence by one, removes the old root's key from the index map, sifts
    the new root down to restore heap order, and returns the removed
    (formerly root) element." *)
Definition dequeue (q : t) : Outcome (Element * t) :=
  match elements_ q with
  | [] => Throw EmptyQueueError
  | root :: _ =>
      let last := (getCount q - 1)%nat in
      let q1 := swap_ q 0 last in
      let q2 :=
        {| priorityFunction_ := priorityFunction_ q1;
           keyFunction_ := keyFunction_ q1;
           elements_ := take last (elements_ q1);
           priorities_ := take last (priorities_ q1);
           indexMap_ := delete (keyFunction_ q root) (indexMap_ q1) |} in
      Done (root, siftDown_ (getCount q2) q2 0)
  end.

(** The priority function is a closure over state of the application (the
    view); between two calls it may answer differently for the same
    element.  This is the function in force from now on. *)
Definition set_priorityFunction (q : t) (f : Element -> Priority) : t :=
  {| priorityFunction_ := f;
     keyFunction_ := keyFunction_ q;
     elements_ := elements_ q;
     priorities_ := priorities_ q;
     indexMap_ := indexMap_ q |}.

(** The index-map consistency invariant of the spec: a key is mapped to a
    slot exactly when that slot holds an element with that key; and the
    two sequences are index-aligned. *)
Definition consistent (q : t) : Prop :=
  length (priorities_ q) = length (elements_ q) /\
  forall (k : Key) (a : nat),
    indexMap_ q !! k = Some a <->
    exists e, elements_ q !! a = Some e /\ keyFunction_ q e = k.

(** What every sift leaves alone. *)
Record preserved (q q' : t) : Prop := {
  preserved_priorityFunction : priorityFunction_ q' = priorityFunction_ q;
  preserved_keyFunction : keyFunction_ q' = keyFunction_ q;
  preserved_getCount : getCount q' = getCount q;
  preserved_dom : dom (indexMap_ q') = dom (indexMap_ q);
  preserved_consistent : consistent q'
}.

End PriorityQueue.

(** ** The shared store: tiles and the event registry *)

(** What a method does to the world outside the queue, in order. *)
Inductive Effect : Type :=
| EListen (q : QueueId) (t : TileRef)
| ELoad (t : TileRef)
| EUnlisten (q : QueueId) (t : TileRef)
| ETileChangeCallback (q : QueueId).

Global Instance Effect_eq_dec : EqDecision Effect.
Proof. solve_decision. Defined.

(** Tiles are shared by reference between queues and their loaders, and so is
    the registry of [goog.events] listeners: one store, threaded through every
    call.  [listeners] holds the pairs (tile, queue) for which
    [queue.handleTileChange] is registered on the tile's CHANGE event. *)
Record Env : Type := mkEnv {
  tiles : gmap TileRef TileState;
  listeners : gset (TileRef * QueueId);
  log : list Effect
}.

(** Modelled from the spec: the loadable item, "created Idle". *)
Definition Tile_getState (env : Env) (t : TileRef) : TileState :=
  default IDLE (tiles env !! t).

Definition Tile_setState (env : Env) (t : TileRef) (s : TileState) : Env :=
  {| tiles := <[t := s]> (tiles env);
     listeners := listeners env;
     log := log env |}.

(** Modelled from the spec: [load()] is fire-and-forget; an Idle tile
    "transitions to Loading when the scheduler starts it", the terminal state
    arrives later as a change event. *)
Definition Tile_load (env : Env) (t : TileRef) : Env :=
  {| tiles := if decide (Tile_getState env t = IDLE)
              then <[t := LOADING]> (tiles env) else tiles env;
     listeners := listeners env;
     log := log env ++ [ELoad t] |}.

(** [goog.events.listen(tile, CHANGE, q.handleTileChange, false, q)]:
    registering the same listener twice keeps one registration. *)
Definition goog_events_listen (env : Env) (t : TileRef) (q : QueueId) : Env :=
  {| tiles := tiles env;
     listeners := {[ (t, q) ]} ∪ listeners env;
     log := log env ++ [EListen q t] |}.

(** [goog.events.unlisten(tile, CHANGE, q.handleTileChange, false, q)]. *)
Definition goog_events_unlisten (env : Env) (t : TileRef) (q : QueueId) : Env :=
  {| tiles := tiles env;
     listeners := listeners env ∖ {[ (t, q) ]};
     log := log env ++ [EUnlisten q t] |}.

(** A call of [q.tileChangeCallback_()]: opaque to the queue, recorded. *)
Definition call_tileChangeCallback (env : Env) (q : QueueId) : Env :=
  {| tiles := tiles env;
     listeners := listeners env;
     log := log env ++ [ETileChangeCallback q] |}.

Definition isCallbackOf (q : QueueId) (e : Effect) : bool :=
  bool_decide (e = ETileChangeCallback q).

Definition isLoad (e : Effect) : bool :=
  match e with ELoad _ => true | _ => false end.

(** How often the callback of [q] has run, and how many loads were started. *)
Definition callbackCalls (q : QueueId) (env : Env) : nat :=
  length (List.filter (isCallbackOf q) (log env)).

Definition loadCalls (env : Env) : nat :=
  length (List.filter isLoad (log env)).

(** ** ol.TileQueue *)

(** The type of [tilePriorityFunction]: it receives the entries of the queued
    array as its arguments. *)
Definition TilePriorityFunction : Type :=
  TileRef -> list Z -> PriorityQueue.Priority.

(** [ol.TileQueue extends ol.structs.PriorityQueue]: the inherited heap and
    the fields the constructor adds.  [uid] is the identity of the object.
    The field [tileChangeCallback_] holds a function the queue only ever
    calls; a call of it is the effect [ETileChangeCallback uid]. *)
Record TileQueue : Type := mkTileQueue {
  uid : QueueId;
  base : PriorityQueue.t;
  tilesLoading_ : Z;
  maxTotalLoading_ : Z;
  maxNewLoads_ : Z
}.

Definition set_base (q : TileQueue) (b : PriorityQueue.t) : TileQueue :=
  {| uid := uid q; base := b; tilesLoading_ := tilesLoading_ q;
     maxTotalLoading_ := maxTotalLoading_ q; maxNewLoads_ := maxNewLoads_ q |}.

Definition set_tilesLoading (q : TileQueue) (n : Z) : TileQueue :=
  {| uid := uid q; base := base q; tilesLoading_ := n;
     maxTotalLoading_ := maxTotalLoading_ q; maxNewLoads_ := maxNewLoads_ q |}.

Definition set_budget (q : TileQueue) (maxTotalLoading maxNewLoads : Z)
    : TileQueue :=
  {| uid := uid q; base := base q; tilesLoading_ := tilesLoading_ q;
     maxTotalLoading_ := maxTotalLoading; maxNewLoads_ := maxNewLoads |}.

(** The constructor (tilequeue.js, lines 27-62). *)
Definition new (id : QueueId) (tilePriorityFunction : TilePriorityFunction)
    : TileQueue :=
  {| uid := id;
     base := PriorityQueue.new
               (fun element =>
                  tilePriorityFunction (el_tile element) (el_args element))
               (fun element => Tile_getKey (el_tile element));
     tilesLoading_ := 0;
     maxTotalLoading_ := 16;
     maxNewLoads_ := 16 |}.

Definition getCount (q : TileQueue) : nat := PriorityQueue.getCount (base q).

Definition getTilesLoading (q : TileQueue) : Z := tilesLoading_ q.

(** *** The drain pass, [loadMoreTiles_] (lines 101-121) *)

(** The state of the loop: [this], the store, and the local [newLoads]. *)
Definition LoopState : Type := TileQueue * Env * Z.

(** The condition of the [while]; the two budgets were read into locals
    before the loop. *)
Definition loadMoreTiles__cond (maxTotalLoading maxNewLoads : Z)
    (s : LoopState) : bool :=
  let '(q, _, newLoads) := s in
  (tilesLoading_ q <? maxTotalLoading) && (newLoads <? maxNewLoads)
  && (0 <? Z.of_nat (getCount q)).

(** The body of the [while]. *)
Definition loadMoreTiles__body (s : LoopState) : Outcome LoopState :=
  let '(q, env, newLoads) := s in
  '(tileStruct, b) ← PriorityQueue.dequeue (base q);
  let q := set_base q b in
  let priority := PriorityQueue.priorityFunction_ (base q) tileStruct in
  if decide (priority ≠ PriorityQueue.DROP) then
    let tile := el_tile tileStruct in
    if decide (Tile_getState env tile = IDLE) then
      let env := goog_events_listen env tile (uid q) in
      let env := Tile_load env tile in
      Done (set_tilesLoading q (tilesLoading_ q + 1), env, newLoads + 1)
    else Done (q, env, newLoads)
  else Done (q, env, newLoads).

Fixpoint loadMoreTiles__loop (fuel : nat) (maxTotalLoading maxNewLoads : Z)
    (s : LoopState) : Outcome LoopState :=
  if loadMoreTiles__cond maxTotalLoading maxNewLoads s then
    match fuel with
    | O => OutOfFuel
    | S fuel' =>
        s' ← loadMoreTiles__body s;
        loadMoreTiles__loop fuel' maxTotalLoading maxNewLoads s'
    end
  else Done s.

(** The pass with its local [newLoads] still visible.  Every turn of the loop
    dequeues, so the queued count is fuel enough. *)
Definition loadMoreTiles__pass (q : TileQueue) (env : Env)
    : Outcome LoopState :=
  loadMoreTiles__loop (getCount q) (maxTotalLoading_ q) (maxNewLoads_ q)
    (q, env, 0).

Definition loadMoreTiles_ (q : TileQueue) (env : Env)
    : Outcome (TileQueue * Env) :=
  '(q', env', _) ← loadMoreTiles__pass q env;
  Done (q', env').

(** *** [enqueue] (lines 66-70) *)
Definition enqueue (q : TileQueue) (element : Element) (env : Env)
    : Outcome (TileQueue * Env) :=
  let q := set_base q (PriorityQueue.enqueue (base q) element) in
  loadMoreTiles_ q env.

(** *** [handleTileChange] (lines 84-95); [tile] is [event.target] *)
Definition handleTileChange (q : TileQueue) (tile : TileRef) (env : Env)
    : Outcome (TileQueue * Env) :=
  let state := Tile_getState env tile in
  if decide (state = LOADED \/ state = ERROR \/ state = EMPTY) then
    let env := goog_events_unlisten env tile (uid q) in
    let q := set_tilesLoading q (tilesLoading_ q - 1) in
    let env := call_tileChangeCallback env (uid q) in
    loadMoreTiles_ q env
  else loadMoreTiles_ q env.

(** *** [loadMoreTiles] (lines 129-133) *)
Definition loadMoreTiles (q : TileQueue) (maxTotalLoading maxNewLoads : Z)
    (env : Env) : Outcome (TileQueue * Env) :=
  let q := set_budget q maxTotalLoading maxNewLoads in
  loadMoreTiles_ q env.

(** ** Events reaching one queue *)

(** The event system delivers a CHANGE event of [tile] to the handler of [q]
    if, and only if, that handler is registered on the tile. *)
Definition Tile_dispatchChange (q : TileQueue) (tile : TileRef) (env : Env)
    : Outcome (TileQueue * Env) :=
  if decide ((tile, uid q) ∈ listeners env)
  then handleTileChange q tile env
  else Done (q, env).

(** What can happen to a queue: a producer enqueues, the budget is set, or a
    tile changes to [state] and says so. *)
Inductive Event : Type :=
| Enqueue (element : Element)
| LoadMoreTiles (maxTotalLoading maxNewLoads : Z)
| TileChange (tile : TileRef) (state : TileState).

Definition step (s : TileQueue * Env) (ev : Event)
    : Outcome (TileQueue * Env) :=
  let '(q, env) := s in
  match ev with
  | Enqueue element => enqueue q element env
  | LoadMoreTiles maxTotalLoading maxNewLoads =>
      loadMoreTiles q maxTotalLoading maxNewLoads env
  | TileChange tile state =>
      Tile_dispatchChange q tile (Tile_setState env tile state)
  end.

Fixpoint run (evs : list Event) (s : TileQueue * Env)
    : Outcome (TileQueue * Env) :=
  match evs with
  | [] => Done s
  | ev :: evs' => s' ← step s ev; run evs' s'
  end.

(** Each element is enqueued into [q1] and then into [q2]; the two queues
    see the same tiles. *)
Fixpoint enqueueBoth (elements : list Element)
    (s : TileQueue * TileQueue * Env) : Outcome (TileQueue * TileQueue * Env) :=
  match elements with
  | [] => Done s
  | element :: rest =>
      let '(q1, q2, env) := s in
      '(q1', env1) ← enqueue q1 element env;
      '(q2', env2) ← enqueue q2 element env1;
      enqueueBoth rest (q1', q2', env2)
  end.

(** A store in which nothing has happened yet: every tile is Idle. *)
Definition Env_empty : Env := {| tiles := ∅; listeners := ∅; log := [] |}.

Definition terminal (s : TileState) : Prop :=
  s = LOADED \/ s = ERROR \/ s = EMPTY.

Global Instance terminal_dec s : Decision (terminal s).
Proof. unfold terminal. apply _. Defined.

(** The tiles of [ts] that are Loading. *)
Definition loadingTiles (env : Env) (ts : list TileRef) : list TileRef :=
  filter (fun t => Tile_getState env t = LOADING) ts.

(** ** The drain pass as a relation *)

(** The pass as a relation: the body runs once more exactly when the
    condition of the [while] holds, and the pass ends in the first state in
    which it does not. *)
Inductive drains (maxTotalLoading maxNewLoads : Z)
    : LoopState -> LoopState -> Prop :=
| drains_exit s :
    loadMoreTiles__cond maxTotalLoading maxNewLoads s = false ->
    drains maxTotalLoading maxNewLoads s s
| drains_turn s s' s'' :
    loadMoreTiles__cond maxTotalLoading maxNewLoads s = true ->
    loadMoreTiles__body s = Done s' ->
    drains maxTotalLoading maxNewLoads s' s'' ->
    drains maxTotalLoading maxNewLoads s s''.

(** What one turn of the loop does to an element it dequeued. *)
Definition loadable (q : TileQueue) (env : Env) (tileStruct : Element)
    : Prop :=
  PriorityQueue.priorityFunction_ (base q) tileStruct <> PriorityQueue.DROP /\
  Tile_getState env (el_tile tileStruct) = IDLE.

Global Instance loadable_dec q env tileStruct
  : Decision (loadable q env tileStruct).
Proof. unfold loadable. apply _. Defined.

Definition startLoad (q : TileQueue) (env : Env) (newLoads : Z)
    (tileStruct : Element) (b : PriorityQueue.t) : LoopState :=
  (set_tilesLoading (set_base q b) (tilesLoading_ q + 1),
   Tile_load (goog_events_listen env (el_tile tileStruct) (uid q))
     (el_tile tileStruct),
   newLoads + 1).

Definition discard (q : TileQueue) (env : Env) (newLoads : Z)
    (b : PriorityQueue.t) : LoopState :=
  (set_base q b, env, newLoads).

(** The counters along a pass: every load is counted once in
    [tilesLoading_], once in [newLoads] and once in the log, and neither
    count passes its budget. *)
Definition counted (q0 : TileQueue) (env0 : Env) (n0 : Z) (s : LoopState)
    : Prop :=
  let '(q, env, n) := s in
  uid q = uid q0 /\
  maxTotalLoading_ q = maxTotalLoading_ q0 /\
  maxNewLoads_ q = maxNewLoads_ q0 /\
  PriorityQueue.priorityFunction_ (base q)
    = PriorityQueue.priorityFunction_ (base q0) /\
  PriorityQueue.keyFunction_ (base q)
    = PriorityQueue.keyFunction_ (base q0) /\
  n0 <= n /\
  tilesLoading_ q = tilesLoading_ q0 + (n - n0) /\
  Z.of_nat (loadCalls env) = Z.of_nat (loadCalls env0) + (n - n0) /\
  (forall u, callbackCalls u env = callbackCalls u env0) /\
  listeners env0 ⊆ listeners env /\
  (getCount q <= getCount q0)%nat.

(** ** Invariants of a queue in its store *)

(** The heap of [q] is consistent and its key function is the one the
    constructor installs. *)
Definition ready (q : TileQueue) : Prop :=
  PriorityQueue.consistent (base q) /\
  forall element,
    PriorityQueue.keyFunction_ (base q) element
    = Tile_getKey (el_tile element).

(** Nothing is left queued while there is room to load it. *)
Definition full (q : TileQueue) : Prop :=
  getCount q = 0%nat \/ maxTotalLoading_ q <= tilesLoading_ q.

(** The fields a pass never writes. *)
Definition sameSetup (q q' : TileQueue) : Prop :=
  uid q' = uid q /\
  maxTotalLoading_ q' = maxTotalLoading_ q /\
  maxNewLoads_ q' = maxNewLoads_ q /\
  PriorityQueue.priorityFunction_ (base q')
    = PriorityQueue.priorityFunction_ (base q).

(** [tilesLoading_] counts the listeners of [q], every listener in the store
    is one of [q], and a tile [q] listens to is Loading. *)
Definition accounted (q : TileQueue) (env : Env) : Prop :=
  tilesLoading_ q = Z.of_nat (size (listeners env)) /\
  forall t u, (t, u) ∈ listeners env ->
    u = uid q /\ Tile_getState env t = LOADING.

Definition stable (q : TileQueue) (env : Env) : Prop :=
  accounted q env /\ full q /\ maxTotalLoading_ q <= maxNewLoads_ q.

(** No tile of the store is Loading. *)
Definition allSettled (env : Env) : Prop :=
  map_Forall (fun _ s => s <> LOADING) (tiles env).

Global Instance allSettled_dec env : Decision (allSettled env).
Proof. unfold allSettled. apply _. Defined.

(** ** Two queues on one pool of tiles, counted *)

(** What enqueueing one more fresh Idle tile into queue 1 and then into
    queue 2 does to (tiles loading, queued count) of the two queues: queue 1
    loads the tile if it has room and queues it otherwise; queue 2 finds the
    tile Loading in the first case and discards it if it has room itself. *)
Definition shareStep (max1 max2 : Z) (st : Z * nat * Z * nat)
    : Z * nat * Z * nat :=
  let '(tl1, c1, tl2, c2) := st in
  if tl1 <? max1 then
    (tl1 + 1, c1, tl2, if tl2 <? max2 then c2 else S c2)
  else if tl2 <? max2 then (tl1, S c1, tl2 + 1, c2)
  else (tl1, S c1, tl2, S c2).

Fixpoint shareSteps (max1 max2 : Z) (n : nat) (st : Z * nat * Z * nat)
    : Z * nat * Z * nat :=
  match n with
  | O => st
  | S n' => shareSteps max1 max2 n' (shareStep max1 max2 st)
  end.

(** ** Concrete scenarios *)

(** A priority function that wants every tile, and one that wants none. *)
Definition wantAll : TilePriorityFunction :=
  fun _ _ => PriorityQueue.Num 0.

Definition wantNone : Element -> PriorityQueue.Priority :=
  fun _ => PriorityQueue.DROP.

(** The elements [[tile]] for the tiles [first, first + 1, ...]. *)
Definition elementsFrom (first count : nat) : list Element :=
  (fun t => mkElement t []) <$> seq first count.

(** The heap of queue [q] after [elements] were put into it, with no pass yet
    (the producer filled the heap while the queue was saturated). *)
Definition queued (q : TileQueue) (elements : list Element) : TileQueue :=
  set_base q (foldl PriorityQueue.enqueue (base q) elements).

(** A queue holding tile 7 under priority 0 whose priority function has
    since turned to [DROP]. *)
Definition staleQueue : TileQueue :=
  let q := queued (new 1%nat wantAll) (elementsFrom 7%nat 1%nat) in
  set_base q (PriorityQueue.set_priorityFunction (base q) wantNone).

(** A store in which tile 7 is already Loading. *)
Definition Env_loading7 : Env := Tile_setState Env_empty 7%nat LOADING.

(** Three tiles queued in a fresh queue with a budget of 2 loads in total and
    1 new load per pass. *)
Definition threeQueued : TileQueue :=
  queued (set_budget (new 1%nat wantAll) 2 1) (elementsFrom 1%nat 3%nat).

(** Queue 1 listening to tile 7, its one load; the tile has since become
    [state]. *)
Definition listening7 : TileQueue := set_tilesLoading (new 1%nat wantAll) 1.

Definition Env_tile7 (state : TileState) : Env :=
  Tile_setState
    (Tile_load (goog_events_listen Env_empty 7%nat 1%nat) 7%nat) 7%nat state.

(** The order in which the loads of tiles 1..20 are started by a queue with
    budget 2 and 2 when each load completes before the next one does. *)
Definition completionOrder : list (TileRef * TileState) :=
  zip [1; 2; 3; 19; 18; 17; 16; 15; 14; 13; 12; 11; 10; 9; 8; 7; 6; 5; 4; 20]%nat
      [LOADED; ERROR; EMPTY; LOADED; LOADED; ERROR; LOADED; LOADED; EMPTY;
       LOADED; LOADED; LOADED; ERROR; LOADED; LOADED; LOADED; EMPTY; LOADED;
       LOADED; LOADED].

(** ** What a pass does to the store *)

(** The effects of starting the loads of [started], in that order: for each
    tile the listener of queue [u] is registered, then the load is started. *)
Definition loadEffects (u : QueueId) (started : list TileRef) : list Effect :=
  started ≫= (fun t => [EListen u t; ELoad t]).

(** The listeners queue [u] holds on the tiles of [started]. *)
Definition listenersOn (u : QueueId) (started : list TileRef)
    : gset (TileRef * QueueId) :=
  list_to_set ((fun t => (t, u)) <$> started).

(** The state of the loop against the state the pass began in, [started]
    being the tiles whose load the pass has started so far. *)
Definition startedSoFar (q0 : TileQueue) (env0 : Env) (n0 : Z)
    (started : list TileRef) (s : LoopState) : Prop :=
  let '(q, env, n) := s in
  uid q = uid q0 /\
  log env = log env0 ++ loadEffects (uid q0) started /\
  NoDup started /\
  n = n0 + Z.of_nat (length started) /\
  listeners env = listenersOn (uid q0) started ∪ listeners env0 /\
  (forall t, t ∈ started ->
     Tile_getState env0 t = IDLE /\ Tile_getState env t = LOADING) /\
  (forall t, t ∉ started -> Tile_getState env t = Tile_getState env0 t) /\
  (getCount q + length started <= getCount q0)%nat.

(** ** Sequences of events *)

(** No event of the sequence sets the budget. *)
Definition budgetUntouched (evs : list Event) : Prop :=
  Forall (fun ev => match ev with LoadMoreTiles _ _ => False | _ => True end)
    evs.

(** No tile is put back to Idle: a tile changes to Loading or to one of the
    terminal states. *)
Definition noTileReset (evs : list Event) : Prop :=
  Forall (fun ev => match ev with TileChange _ s => s <> IDLE | _ => True end)
    evs.

(** Every budget that is set allows at most [bound] loads in total. *)
Definition budgetsWithin (bound : Z) (evs : list Event) : Prop :=
  Forall (fun ev => match ev with
                    | LoadMoreTiles maxTotalLoading _ =>
                        maxTotalLoading <= bound
                    | _ => True
                    end) evs.

(** No tile is put back to Idle, and every budget that is set allows as many
    new loads per pass as loads in total. *)
Definition unthrottled (evs : list Event) : Prop :=
  Forall (fun ev => match ev with
                    | TileChange _ s => s <> IDLE
                    | LoadMoreTiles maxTotalLoading maxNewLoads =>
                        maxTotalLoading <= maxNewLoads
                    | Enqueue _ => True
                    end) evs.

(** Three tiles queued in a queue whose per-pass budget is 0. *)
Definition pausedQueue : TileQueue :=
  queued (set_budget (new 1%nat wantAll) 16 0) (elementsFrom 1%nat 3%nat).

(** A day in the life of a queue: tiles are enqueued, loads complete in one
    way or another, the budget is changed in between. *)
Definition busyDay : list Event :=
  [Enqueue (mkElement 1%nat []); Enqueue (mkElement 2%nat []);
   LoadMoreTiles 1 1; Enqueue (mkElement 3%nat []);
   TileChange 1%nat LOADED; Enqueue (mkElement 4%nat []);
   TileChange 2%nat ERROR; LoadMoreTiles 2 4; TileChange 3%nat LOADING;
   TileChange 3%nat EMPTY; TileChange 4%nat LOADED].

(** The same without the budget changes. *)
Definition quietDay : list Event :=
  [Enqueue (mkElement 1%nat []); Enqueue (mkElement 2%nat []);
   Enqueue (mkElement 3%nat []); TileChange 1%nat LOADED;
   Enqueue (mkElement 4%nat []); TileChange 2%nat ERROR;
   TileChange 3%nat LOADING; TileChange 3%nat EMPTY].

(** * ol/format/Feature *)

(** ** Numbers and coordinates *)

(** Numbers are exact here, rationals: the functions below take a remainder,
    add or subtract the modulus once and compare.  Rounding, NaN and the
    infinities are outside the model. *)
Definition Qtruncate (x : Q) : Z :=
  if Qle_bool 0 x then Qfloor x else Qceiling x.

(** JavaScript's [a % b]: what is left of [a] after taking out [b] as many
    whole times as it fits, towards zero; the sign is that of [a]. *)
Definition jsRem (a b : Q) : Q :=
  (a - b * inject_Z (Qtruncate (a / b)))%Q.

(** [ol.Coordinate]: an array of at least two numbers, [coordinate[0]],
    [coordinate[1]] and whatever follows them. *)
Record Coordinate : Type := mkCoordinate {
  ord0 : Q;
  ord1 : Q;
  ordRest : list Q
}.

(** ** Options *)

(** The values an option can hold. *)
Inductive JsValue : Type :=
| Undefined
| Null
| Bool (b : bool)
| Num (n : Q)
| Str (s : string)
| Ref (object : nat).

(** An object with its own properties. *)
Definition get (o : gmap string JsValue) (key : string) : JsValue :=
  default Undefined (o !! key).

(** What counts as true in a condition. *)
Definition truthy (v : JsValue) : bool :=
  match v with
  | Undefined | Null => false
  | Bool b => b
  | Num n => negb (Qeq_bool n 0)
  | Str s => negb (String.eqb s "")
  | Ref _ => true
  end.

(** [assign(target, source)] of ol/obj.js, which is [Object.assign]: every
    own property of [source] is written to [target]; a [source] that is
    undefined contributes nothing. *)
Definition assign (target : gmap string JsValue)
    (source : option (gmap string JsValue)) : gmap string JsValue :=
  match source with
  | Some s => s ∪ target
  | None => target
  end.

(** ** The module as it stands after tilequeue.js *)

Module FeatureFormat.

Section Format.

(** What is read from: a document, a node, an object or a string. *)
Context {Source : Type}.

(** A format: the two fields of the constructor, and [readProjection] as the
    subclass implements it. *)
Record t : Type := mk {
  defaultDataProjection : JsValue;
  defaultFeatureProjection : JsValue;
  readProjection : Source -> JsValue
}.

(** [adaptOptions(options)] (tilequeue.js, lines 201-206). *)
Definition adaptOptions (this : t) (options : option (gmap string JsValue))
    : gmap string JsValue :=
  assign
    {[ "dataProjection" := defaultDataProjection this;
       "featureProjection" := defaultFeatureProjection this ]}
    options.

(** [getReadOptions(source, opt_options)] (tilequeue.js, lines 179-189). *)
Definition getReadOptions (this : t) (source : Source)
    (opt_options : option (gmap string JsValue)) : gmap string JsValue :=
  let options :=
    match opt_options with
    | Some o =>
        Some {[ "dataProjection" :=
                  if truthy (get o "dataProjection")
                  then get o "dataProjection"
                  else readProjection this source;
                "featureProjection" := get o "featureProjection" ]}
    | None => None
    end in
  adaptOptions this options.

End Format.

(** [wrapped(coordinate, from)] (tilequeue.js, lines 415-425); [from] is
    never read.  The result is the two-element array
    [[longitude', coordinate[1]]]. *)
Definition wrapped (coordinate : Coordinate) : Coordinate :=
  let longitude := jsRem (ord0 coordinate) 360 in
  if Qlt_le_dec 180 longitude then
    mkCoordinate (longitude - 360) (ord1 coordinate) []
  else if Qlt_le_dec longitude (-179) then
    mkCoordinate (longitude + 360) (ord1 coordinate) []
  else mkCoordinate longitude (ord1 coordinate) [].

End FeatureFormat.

(** ** The module with the width of the world as a parameter *)

Module FeatureFormatWorld.

(** [wrapped(coordinate, hemisphere)] (part_000, lines 287-298). *)
Definition wrapped (coordinate : Coordinate) (hemisphere : Q) : Coordinate :=
  let circumference := (hemisphere * 2)%Q in
  let longitude := jsRem (ord0 coordinate) circumference in
  if Qlt_le_dec hemisphere longitude then
    mkCoordinate (longitude - circumference) (ord1 coordinate) []
  else if Qlt_le_dec longitude (- hemisphere) then
    mkCoordinate (longitude + circumference) (ord1 coordinate) []
  else mkCoordinate longitude (ord1 coordinate) [].

End FeatureFormatWorld.

(** ** Loads over a whole run *)

(** The tiles whose [load()] was called, in order. *)
Definition loadedTiles (effects : list Effect) : list TileRef :=
  omap (fun e => match e with ELoad t => Some t | _ => None end) effects.

(** How many elements a sequence of events hands to the queue. *)
Definition enqueued (evs : list Event) : nat :=
  length (List.filter
            (fun ev => match ev with Enqueue _ => true | _ => false end) evs).

(** Every load so far was of a different tile, and none of these tiles is
    Idle. *)
Definition loadedOnce (env : Env) : Prop :=
  NoDup (loadedTiles (log env)) /\
  forall t, t ∈ loadedTiles (log env) -> Tile_getState env t <> IDLE.

(** The same tile handed to the queue again and again while its load
    completes only at the end. *)
Definition insistentDay : list Event :=
  [Enqueue (mkElement 1%nat []); Enqueue (mkElement 1%nat []);
   Enqueue (mkElement 2%nat []); Enqueue (mkElement 1%nat [5]);
   TileChange 2%nat LOADED; Enqueue (mkElement 2%nat []);
   TileChange 1%nat ERROR; Enqueue (mkElement 1%nat [])].

(** * Properties *)

(** ** The heap: counts and index-map consistency *)

Module PriorityQueueFacts.
Import PriorityQueue.
Local Open Scope nat_scope.

(** Reading a list after two of its slots were exchanged. *)
Lemma lookup_exchange {A : Type} (l : list A) (i j k : nat) (x y : A) :
  l !! i = Some x -> l !! j = Some y ->
  <[i := y]> (<[j := x]> l) !! k =
    l !! (if decide (k = i) then j else if decide (k = j) then i else k).
Proof.
  intros Hi Hj.
  pose proof (lookup_lt_Some _ _ _ Hi) as Hli.
  pose proof (lookup_lt_Some _ _ _ Hj) as Hlj.
  destruct (decide (k = i)) as [->|Hki].
  - rewrite list_lookup_insert_eq by (rewrite length_insert; lia). done.
  - rewrite list_lookup_insert_ne by done.
    destruct (decide (k = j)) as [->|Hkj].
    + rewrite list_lookup_insert_eq by lia. done.
    + by rewrite list_lookup_insert_ne.
Qed.

Lemma swap__functions q i j :
  priorityFunction_ (swap_ q i j) = priorityFunction_ q /\
  keyFunction_ (swap_ q i j) = keyFunction_ q.
Proof. unfold swap_. repeat case_match; done. Qed.

Lemma swap__getCount q i j : getCount (swap_ q i j) = getCount q.
Proof.
  unfold swap_, getCount. repeat case_match; simpl; try done.
  by rewrite !length_insert.
Qed.

Lemma swap__consistent q i j : consistent q -> consistent (swap_ q i j).
Proof.
  intros [Hlen Hc]. unfold swap_.
  destruct (elements_ q !! i) as [ei|] eqn:Hi; [|done].
  destruct (elements_ q !! j) as [ej|] eqn:Hj; [|done].
  destruct (priorities_ q !! i) as [pi|] eqn:Hpi; [|done].
  destruct (priorities_ q !! j) as [pj|] eqn:Hpj; [|done].
  split; simpl.
  { by rewrite !length_insert. }
  assert (Hii : indexMap_ q !! keyFunction_ q ei = Some i)
    by (apply Hc; eauto).
  assert (Hjj : indexMap_ q !! keyFunction_ q ej = Some j)
    by (apply Hc; eauto).
  intros k a. rewrite (lookup_exchange _ _ _ _ _ _ Hi Hj).
  destruct (decide (i = j)) as [->|Hij].
  { assert (ei = ej) as -> by congruence.
    rewrite insert_insert_eq, (insert_id _ _ _ Hjj).
    destruct (decide (a = j)) as [->|]; apply Hc. }
  assert (Hk : keyFunction_ q ei <> keyFunction_ q ej).
  { intros Heq. rewrite Heq in Hii. congruence. }
  split.
  - intros Hl.
    destruct (decide (k = keyFunction_ q ej)) as [->|Hkj].
    { rewrite lookup_insert_eq in Hl. injection Hl as <-.
      rewrite decide_True by done. eauto. }
    rewrite lookup_insert_ne in Hl by done.
    destruct (decide (k = keyFunction_ q ei)) as [->|Hki].
    { rewrite lookup_insert_eq in Hl. injection Hl as <-.
      rewrite decide_False, decide_True by done. eauto. }
    rewrite lookup_insert_ne in Hl by done.
    apply Hc in Hl as (e & He & Hke).
    rewrite decide_False, decide_False; [eauto| |]; intros ->; congruence.
  - intros (e & He & Hke).
    destruct (decide (a = i)) as [->|Hai].
    { assert (e = ej) as -> by congruence. subst k.
      by rewrite lookup_insert_eq. }
    destruct (decide (a = j)) as [->|Haj].
    { assert (e = ei) as -> by congruence. subst k.
      rewrite lookup_insert_ne by done. by rewrite lookup_insert_eq. }
    assert (Hka : indexMap_ q !! k = Some a) by (apply Hc; eauto).
    rewrite !lookup_insert_ne; [done| |]; intros <-; congruence.
Qed.

Lemma swap__dom q i j :
  consistent q -> dom (indexMap_ (swap_ q i j)) = dom (indexMap_ q).
Proof.
  intros [Hlen Hc]. unfold swap_.
  destruct (elements_ q !! i) as [ei|] eqn:Hi; [|done].
  destruct (elements_ q !! j) as [ej|] eqn:Hj; [|done].
  repeat case_match; try done. simpl.
  assert (Hii : indexMap_ q !! keyFunction_ q ei = Some i)
    by (apply Hc; eauto).
  assert (Hjj : indexMap_ q !! keyFunction_ q ej = Some j)
    by (apply Hc; eauto).
  rewrite !dom_insert_L.
  apply (elem_of_dom_2 (D := gset Key)) in Hii, Hjj.
  clear -Hii Hjj. set_solver.
Qed.

Lemma preserved_refl q : consistent q -> preserved q q.
Proof. by split. Qed.

Lemma preserved_swap_ q i j : consistent q -> preserved q (swap_ q i j).
Proof.
  intros Hc. split.
  - apply swap__functions.
  - apply swap__functions.
  - apply swap__getCount.
  - by apply swap__dom.
  - by apply swap__consistent.
Qed.

Lemma preserved_trans q1 q2 q3 :
  preserved q1 q2 -> preserved q2 q3 -> preserved q1 q3.
Proof. intros [] []. split; congruence. Qed.

Lemma preserved_siftUp_ fuel q i :
  consistent q -> preserved q (siftUp_ fuel q i).
Proof.
  revert q i. induction fuel as [|fuel IH]; intros q i Hc; simpl.
  { by apply preserved_refl. }
  repeat case_match; try by apply preserved_refl.
  eapply preserved_trans; [by apply preserved_swap_|].
  apply IH. by apply swap__consistent.
Qed.

Lemma preserved_siftDown_ fuel q i :
  consistent q -> preserved q (siftDown_ fuel q i).
Proof.
  revert q i. induction fuel as [|fuel IH]; intros q i Hc; simpl.
  { by apply preserved_refl. }
  repeat case_match; try by apply preserved_refl.
  all: eapply preserved_trans; [by apply preserved_swap_|].
  all: apply IH; by apply swap__consistent.
Qed.

(** Counts and the two functions survive a sift whatever the heap holds. *)
Lemma siftUp__getCount fuel q i : getCount (siftUp_ fuel q i) = getCount q.
Proof.
  revert q i. induction fuel as [|fuel IH]; intros q i; simpl; [done|].
  repeat case_match; try done. by rewrite IH, swap__getCount.
Qed.

Lemma siftDown__getCount fuel q i :
  getCount (siftDown_ fuel q i) = getCount q.
Proof.
  revert q i. induction fuel as [|fuel IH]; intros q i; simpl; [done|].
  repeat case_match; try done; by rewrite IH, swap__getCount.
Qed.

Lemma siftUp__functions fuel q i :
  priorityFunction_ (siftUp_ fuel q i) = priorityFunction_ q /\
  keyFunction_ (siftUp_ fuel q i) = keyFunction_ q.
Proof.
  revert q i. induction fuel as [|fuel IH]; intros q i; simpl; [done|].
  repeat case_match; try done.
  match goal with
  | |- context [siftUp_ _ (swap_ ?q0 ?i0 ?m) ?m] =>
      destruct (IH (swap_ q0 i0 m) m) as [-> ->]
  end. apply swap__functions.
Qed.

Lemma siftDown__functions fuel q i :
  priorityFunction_ (siftDown_ fuel q i) = priorityFunction_ q /\
  keyFunction_ (siftDown_ fuel q i) = keyFunction_ q.
Proof.
  revert q i. induction fuel as [|fuel IH]; intros q i; simpl; [done|].
  repeat case_match; try done.
  all: match goal with
       | |- context [siftDown_ _ (swap_ ?q0 ?i0 ?m) ?m] =>
           destruct (IH (swap_ q0 i0 m) m) as [-> ->]
       end; apply swap__functions.
Qed.

(** *** [enqueue] *)

Lemma enqueue_functions q el :
  priorityFunction_ (enqueue q el) = priorityFunction_ q /\
  keyFunction_ (enqueue q el) = keyFunction_ q.
Proof.
  unfold enqueue. case_match; [done|].
  match goal with
  | |- context [siftUp_ ?f ?q' ?i] =>
      destruct (siftUp__functions f q' i) as [-> ->]
  end. done.
Qed.

Lemma enqueue_queued q el :
  is_Some (indexMap_ q !! keyFunction_ q el) -> enqueue q el = q.
Proof. intros [a Ha]. unfold enqueue. by rewrite Ha. Qed.

Lemma append_consistent q el :
  consistent q -> indexMap_ q !! keyFunction_ q el = None ->
  consistent
    {| priorityFunction_ := priorityFunction_ q;
       keyFunction_ := keyFunction_ q;
       elements_ := elements_ q ++ [el];
       priorities_ := priorities_ q ++ [priorityFunction_ q el];
       indexMap_ := <[keyFunction_ q el := getCount q]> (indexMap_ q) |}.
Proof.
  intros [Hlen Hc] Hfresh. split; simpl.
  { rewrite !length_app. simpl. lia. }
  intros k a. unfold getCount. split.
  - intros Hl. destruct (decide (k = keyFunction_ q el)) as [->|Hk].
    + rewrite lookup_insert_eq in Hl. injection Hl as <-.
      exists el. split; [|done]. by apply list_lookup_middle.
    + rewrite lookup_insert_ne in Hl by done.
      apply Hc in Hl as (e & He & Hke). exists e. split; [|done].
      by apply lookup_app_l_Some.
  - intros (e & He & Hke). apply lookup_snoc_Some in He as [[Ha He]|[-> ->]].
    + assert (indexMap_ q !! k = Some a) by (apply Hc; eauto).
      rewrite lookup_insert_ne; [done|]. intros <-. congruence.
    + subst k. by rewrite lookup_insert_eq.
Qed.

Lemma enqueue_consistent q el : consistent q -> consistent (enqueue q el).
Proof.
  intros Hc. unfold enqueue.
  destruct (indexMap_ q !! keyFunction_ q el) eqn:Hl; [done|].
  apply preserved_siftUp_. by apply append_consistent.
Qed.

Lemma enqueue_fresh_getCount q el :
  indexMap_ q !! keyFunction_ q el = None ->
  getCount (enqueue q el) = S (getCount q).
Proof.
  intros Hl. unfold enqueue. rewrite Hl, siftUp__getCount.
  unfold getCount. simpl. rewrite length_app. simpl. lia.
Qed.

Lemma enqueue_dom q el :
  consistent q ->
  dom (indexMap_ (enqueue q el)) = {[keyFunction_ q el]} ∪ dom (indexMap_ q).
Proof.
  intros Hc. unfold enqueue.
  destruct (indexMap_ q !! keyFunction_ q el) eqn:Hl.
  { apply (elem_of_dom_2 (D := gset Key)) in Hl. clear -Hl. set_solver. }
  rewrite (preserved_dom _ _ (preserved_siftUp_ _ _ _
             (append_consistent q el Hc Hl))).
  simpl. by rewrite dom_insert_L.
Qed.

(** In a consistent heap without elements no key is queued. *)
Lemma consistent_empty q k :
  consistent q -> getCount q = 0 -> indexMap_ q !! k = None.
Proof.
  intros [_ Hc] Hn. destruct (indexMap_ q !! k) as [a|] eqn:Hl; [|done].
  apply Hc in Hl as (e & He & _). apply lookup_lt_Some in He.
  unfold getCount in Hn. lia.
Qed.

Lemma enqueue_empty q el :
  consistent q -> getCount q = 0 -> elements_ (enqueue q el) = [el].
Proof.
  intros Hc Hn. unfold enqueue.
  rewrite (consistent_empty q _ Hc Hn), Hn. simpl.
  unfold getCount in Hn. by apply nil_length_inv in Hn as ->.
Qed.

(** *** [dequeue] *)

Lemma dequeue_empty q : getCount q = 0 -> dequeue q = Throw EmptyQueueError.
Proof.
  unfold getCount, dequeue. intros Hn. by apply nil_length_inv in Hn as ->.
Qed.

(** On a heap that holds something, [dequeue] returns: the element of slot
    0, and a heap with one element less. *)
Lemma dequeue_Done q :
  0 < getCount q ->
  exists root q',
    dequeue q = Done (root, q') /\
    elements_ q !! 0 = Some root /\
    getCount q' = getCount q - 1 /\
    priorityFunction_ q' = priorityFunction_ q /\
    keyFunction_ q' = keyFunction_ q.
Proof.
  unfold dequeue. intros Hn.
  destruct (elements_ q) as [|root rest] eqn:He.
  { unfold getCount in Hn. rewrite He in Hn. simpl in Hn. lia. }
  eexists _, _. split; [done|]. split; [done|].
  rewrite siftDown__getCount.
  match goal with
  | |- context [siftDown_ ?f ?q' ?i] =>
      destruct (siftDown__functions f q' i) as [-> ->]
  end. simpl.
  destruct (swap__functions q 0 (getCount q - 1)) as [-> ->].
  split; [|done].
  unfold getCount at 1. simpl. rewrite length_take.
  fold (getCount (swap_ q 0 (getCount q - 1))).
  rewrite swap__getCount. lia.
Qed.

Lemma dequeue_consistent q root q' :
  consistent q -> dequeue q = Done (root, q') ->
  consistent q' /\
  dom (indexMap_ q') = dom (indexMap_ q) ∖ {[keyFunction_ q root]}.
Proof.
  unfold dequeue. intros Hc Hd.
  destruct (elements_ q) as [|root' rest] eqn:He; [done|].
  injection Hd as -> <-.
  set (last := getCount q - 1).
  assert (Hlast : getCount q = S last).
  { unfold last, getCount. rewrite He. simpl. lia. }
  pose proof (swap__consistent q 0 last Hc) as Hc1.
  pose proof (swap__dom q 0 last Hc) as Hd1.
  pose proof (swap__getCount q 0 last) as Hn1.
  destruct (swap__functions q 0 last) as [Hpf1 Hkf1].
  assert (Hroot : elements_ (swap_ q 0 last) !! last = Some root).
  { destruct Hc as [Hlen Hc]. unfold swap_.
    assert (is_Some (elements_ q !! last)) as [el Hel]
      by (apply lookup_lt_is_Some; unfold getCount in Hlast; lia).
    assert (is_Some (priorities_ q !! 0)) as [p0 Hp0]
      by (apply lookup_lt_is_Some; unfold getCount in Hlast; lia).
    assert (is_Some (priorities_ q !! last)) as [pl Hpl]
      by (apply lookup_lt_is_Some; unfold getCount in Hlast; lia).
    assert (H0 : elements_ q !! 0 = Some root) by (by rewrite He).
    rewrite H0, Hel, Hp0, Hpl. simpl.
    rewrite (lookup_exchange _ _ _ _ _ _ H0 Hel).
    destruct (decide (last = 0)) as [->|]; [done|].
    by rewrite decide_True. }
  set (q2 := {| priorityFunction_ := priorityFunction_ (swap_ q 0 last);
                keyFunction_ := keyFunction_ (swap_ q 0 last);
                elements_ := take last (elements_ (swap_ q 0 last));
                priorities_ := take last (priorities_ (swap_ q 0 last));
                indexMap_ := delete (keyFunction_ q root)
                               (indexMap_ (swap_ q 0 last)) |}).
  assert (Hc2 : consistent q2).
  { destruct Hc1 as [Hlen1 Hc1]. split; simpl.
    { rewrite !length_take. lia. }
    intros k a. rewrite Hkf1. split.
    - intros Hl. apply lookup_delete_Some in Hl as [Hk Hl].
      apply Hc1 in Hl as (e & Hea & Hke). rewrite Hkf1 in Hke.
      exists e. split; [|done].
      rewrite lookup_take_lt; [done|].
      pose proof (lookup_lt_Some _ _ _ Hea) as Hlt.
      fold (getCount (swap_ q 0 last)) in Hlt.
      destruct (decide (a = last)) as [->|]; [congruence|lia].
    - intros (e & Hea & Hke).
      apply lookup_take_Some in Hea as [Hea Hlt].
      apply lookup_delete_Some. split.
      + intros Heq.
        assert (indexMap_ (swap_ q 0 last) !! k = Some last)
          by (apply Hc1; exists root; by rewrite Hkf1).
        assert (indexMap_ (swap_ q 0 last) !! k = Some a)
          by (apply Hc1; exists e; by rewrite Hkf1).
        assert (a = last) by congruence. lia.
      + apply Hc1. exists e. by rewrite Hkf1. }
  pose proof (preserved_siftDown_ (getCount q2) q2 0 Hc2) as [_ _ _ Hd2 Hc3].
  split; [done|]. rewrite Hd2. simpl. by rewrite dom_delete_L, Hd1.
Qed.

End PriorityQueueFacts.

(** ** The drain pass: facts *)

Section Drain.

Lemma cond_true maxTotalLoading maxNewLoads q env newLoads :
  loadMoreTiles__cond maxTotalLoading maxNewLoads (q, env, newLoads) = true
  <-> tilesLoading_ q < maxTotalLoading /\ newLoads < maxNewLoads /\
      (0 < getCount q)%nat.
Proof.
  unfold loadMoreTiles__cond.
  rewrite !andb_true_iff, !Z.ltb_lt. lia.
Qed.

Lemma cond_false maxTotalLoading maxNewLoads q env newLoads :
  loadMoreTiles__cond maxTotalLoading maxNewLoads (q, env, newLoads) = false
  <-> maxTotalLoading <= tilesLoading_ q \/ maxNewLoads <= newLoads \/
      getCount q = 0%nat.
Proof.
  rewrite <- not_true_iff_false, cond_true. lia.
Qed.

(** One turn on a heap that holds something: the root is dequeued, and it
    is either started or discarded. *)
Lemma body_Done q env newLoads :
  (0 < getCount q)%nat ->
  exists tileStruct b,
    PriorityQueue.dequeue (base q) = Done (tileStruct, b) /\
    PriorityQueue.elements_ (base q) !! 0%nat = Some tileStruct /\
    PriorityQueue.getCount b = (getCount q - 1)%nat /\
    PriorityQueue.priorityFunction_ b
      = PriorityQueue.priorityFunction_ (base q) /\
    PriorityQueue.keyFunction_ b = PriorityQueue.keyFunction_ (base q) /\
    loadMoreTiles__body (q, env, newLoads) =
      Done (if decide (loadable q env tileStruct)
            then startLoad q env newLoads tileStruct b
            else discard q env newLoads b).
Proof.
  intros Hn.
  destruct (PriorityQueueFacts.dequeue_Done (base q) Hn)
    as (root & b & Hd & H0 & Hc & Hpf & Hkf).
  exists root, b. repeat (split; [done|]).
  unfold loadMoreTiles__body. rewrite Hd. simpl.
  unfold loadable, startLoad, discard. rewrite Hpf.
  destruct (decide (PriorityQueue.priorityFunction_ (base q) root
                    <> PriorityQueue.DROP)) as [Hp|Hp];
    destruct (decide (Tile_getState env (el_tile root) = IDLE)) as [Hs|Hs].
  - rewrite decide_True by done. done.
  - rewrite decide_False by tauto. done.
  - rewrite decide_False by tauto. done.
  - rewrite decide_False by tauto. done.
Qed.

Lemma body_getCount q env newLoads q' env' newLoads' :
  loadMoreTiles__body (q, env, newLoads) = Done (q', env', newLoads') ->
  getCount q' = (getCount q - 1)%nat.
Proof.
  intros Hb. destruct (decide (0 < getCount q)%nat) as [Hn|Hn].
  - destruct (body_Done q env newLoads Hn)
      as (el & b & _ & _ & Hc & _ & _ & Hb').
    rewrite Hb' in Hb. unfold startLoad, discard in Hb.
    case_decide; injection Hb as <- <- <-; done.
  - unfold loadMoreTiles__body in Hb.
    rewrite PriorityQueueFacts.dequeue_empty in Hb; [done|].
    unfold getCount in Hn. lia.
Qed.

(** The loop with enough fuel returns, and what it returns is what the
    [while] computes. *)
Lemma loop_drains fuel maxTotalLoading maxNewLoads s :
  (getCount s.1.1 <= fuel)%nat ->
  exists s',
    loadMoreTiles__loop fuel maxTotalLoading maxNewLoads s = Done s' /\
    drains maxTotalLoading maxNewLoads s s'.
Proof.
  revert s. induction fuel as [|fuel IH]; intros [[q env] n] Hf;
    simpl in Hf; cbn [loadMoreTiles__loop].
  - destruct (loadMoreTiles__cond maxTotalLoading maxNewLoads (q, env, n))
      eqn:Hc.
    + apply cond_true in Hc. lia.
    + eexists. split; [done|]. by apply drains_exit.
  - destruct (loadMoreTiles__cond maxTotalLoading maxNewLoads (q, env, n))
      eqn:Hc.
    + pose proof Hc as Hc'. apply cond_true in Hc' as (_ & _ & Hn).
      destruct (body_Done q env n Hn) as (el & b & _ & _ & Hcnt & _ & _ & Hb).
      rewrite Hb. simpl.
      match goal with
      | |- context [loadMoreTiles__loop fuel _ _ ?s1] =>
          destruct (IH s1) as (s' & Hl & Hd)
      end.
      { unfold startLoad, discard. case_decide; simpl; fold (getCount q) in *;
          unfold getCount in *; simpl; lia. }
      exists s'. split; [done|]. eapply drains_turn; eauto.
    + eexists. split; [done|]. by apply drains_exit.
Qed.

Lemma pass_drains q env :
  exists s',
    loadMoreTiles__pass q env = Done s' /\
    drains (maxTotalLoading_ q) (maxNewLoads_ q) (q, env, 0) s'.
Proof. unfold loadMoreTiles__pass. by apply loop_drains. Qed.

(** Whatever one turn preserves, the pass preserves. *)
Lemma drains_invariant (P : LoopState -> Prop) maxTotalLoading maxNewLoads
    s s' :
  (forall s1 s2,
      loadMoreTiles__cond maxTotalLoading maxNewLoads s1 = true ->
      loadMoreTiles__body s1 = Done s2 -> P s1 -> P s2) ->
  drains maxTotalLoading maxNewLoads s s' -> P s -> P s'.
Proof. intros Hstep Hd. induction Hd; eauto. Qed.

Lemma drains_final maxTotalLoading maxNewLoads s s' :
  drains maxTotalLoading maxNewLoads s s' ->
  loadMoreTiles__cond maxTotalLoading maxNewLoads s' = false.
Proof. induction 1; done. Qed.

End Drain.

(** ** What a pass changes and what it leaves alone *)

Section PassFrame.

Lemma turn_cases maxTotalLoading maxNewLoads q env n s' :
  loadMoreTiles__cond maxTotalLoading maxNewLoads (q, env, n) = true ->
  loadMoreTiles__body (q, env, n) = Done s' ->
  exists tileStruct b,
    PriorityQueue.dequeue (base q) = Done (tileStruct, b) /\
    PriorityQueue.getCount b = (getCount q - 1)%nat /\
    PriorityQueue.priorityFunction_ b
      = PriorityQueue.priorityFunction_ (base q) /\
    PriorityQueue.keyFunction_ b = PriorityQueue.keyFunction_ (base q) /\
    ((loadable q env tileStruct /\ s' = startLoad q env n tileStruct b) \/
     (~ loadable q env tileStruct /\ s' = discard q env n b)).
Proof.
  intros Hc Hb. apply cond_true in Hc as (_ & _ & Hn).
  destruct (body_Done q env n Hn) as (el & b & Hd & _ & Hcnt & Hpf & Hkf & Hb').
  rewrite Hb' in Hb. exists el, b. repeat (split; [done|]).
  case_decide; injection Hb as <-; [left|right]; done.
Qed.

Lemma loadCalls_startLoad env t u :
  loadCalls (Tile_load (goog_events_listen env t u) t) = S (loadCalls env).
Proof.
  unfold loadCalls. simpl. rewrite !List.filter_app, !length_app. simpl. lia.
Qed.

Lemma callbackCalls_startLoad env t u u' :
  callbackCalls u' (Tile_load (goog_events_listen env t u) t)
  = callbackCalls u' env.
Proof.
  unfold callbackCalls. simpl.
  rewrite !List.filter_app, !length_app. simpl. lia.
Qed.

Lemma getState_startLoad_eq env t u :
  Tile_getState env t = IDLE ->
  Tile_getState (Tile_load (goog_events_listen env t u) t) t = LOADING.
Proof.
  intros Hs. unfold Tile_getState at 1. simpl.
  change (Tile_getState (goog_events_listen env t u) t)
    with (Tile_getState env t).
  rewrite decide_True by done. by rewrite lookup_insert_eq.
Qed.

Lemma getState_startLoad_ne env t u t' :
  t' <> t ->
  Tile_getState (Tile_load (goog_events_listen env t u) t) t'
  = Tile_getState env t'.
Proof.
  intros Hne. unfold Tile_getState at 1. simpl.
  case_decide; [|done]. by rewrite lookup_insert_ne.
Qed.

Lemma drains_counted maxTotalLoading maxNewLoads q env n s' :
  drains maxTotalLoading maxNewLoads (q, env, n) s' ->
  counted q env n s'.
Proof.
  intros Hd.
  refine (drains_invariant (counted q env n) _ _ _ _ _ Hd _).
  - intros [[q1 env1] n1] s2 Hc Hb H1.
    destruct (turn_cases _ _ _ _ _ _ Hc Hb)
      as (el & b & _ & Hcnt & Hpf & Hkf & [[_ ->]|[_ ->]]);
      destruct H1 as (? & ? & ? & ? & ? & ? & ? & ? & ? & ? & ?);
      unfold startLoad, discard, counted, getCount in *; simpl.
    + rewrite loadCalls_startLoad. repeat split; try congruence; try lia.
      * intros u. rewrite callbackCalls_startLoad. auto.
      * set_solver.
    + repeat split; try congruence; try lia; auto.
  - unfold counted. repeat split; try done; lia.
Qed.

Lemma drains_bounded maxTotalLoading maxNewLoads q env n q' env' n' :
  drains maxTotalLoading maxNewLoads (q, env, n) (q', env', n') ->
  tilesLoading_ q <= maxTotalLoading -> n <= maxNewLoads ->
  tilesLoading_ q' <= maxTotalLoading /\ n' <= maxNewLoads.
Proof.
  intros Hd H1 H2.
  refine (drains_invariant
           (fun s => tilesLoading_ s.1.1 <= maxTotalLoading /\
                     s.2 <= maxNewLoads) _ _ _ _ _ Hd _); [|done].
  intros [[q1 env1] n1] s2 Hc Hb _.
  destruct (turn_cases _ _ _ _ _ _ Hc Hb)
    as (el & b & _ & _ & _ & _ & [[_ ->]|[_ ->]]);
    apply cond_true in Hc; unfold startLoad, discard; simpl; lia.
Qed.

(** A pass moves tiles from Idle to Loading and in no other way. *)
Lemma drains_getState maxTotalLoading maxNewLoads q env n q' env' n' t :
  drains maxTotalLoading maxNewLoads (q, env, n) (q', env', n') ->
  Tile_getState env' t = Tile_getState env t \/
  (Tile_getState env t = IDLE /\ Tile_getState env' t = LOADING).
Proof.
  intros Hd.
  refine (drains_invariant
           (fun s => Tile_getState s.1.2 t = Tile_getState env t \/
                     (Tile_getState env t = IDLE /\
                      Tile_getState s.1.2 t = LOADING))
           _ _ _ _ _ Hd _); [|by left].
  intros [[q1 env1] n1] s2 Hc Hb H1. simpl in H1.
  destruct (turn_cases _ _ _ _ _ _ Hc Hb)
    as (el & b & _ & _ & _ & _ & [[[_ Hidle] ->]|[_ ->]]);
    unfold startLoad, discard; simpl; [|done].
  destruct (decide (t = el_tile el)) as [->|Hne].
  - right. rewrite getState_startLoad_eq by done.
    destruct H1 as [H1|[_ H1]]; [split; congruence|congruence].
  - by rewrite getState_startLoad_ne.
Qed.

(** A tile that is not Idle is not subscribed to by a pass. *)
Lemma drains_not_listening maxTotalLoading maxNewLoads q env n q' env' n'
    t u :
  drains maxTotalLoading maxNewLoads (q, env, n) (q', env', n') ->
  Tile_getState env t <> IDLE -> (t, u) ∉ listeners env ->
  (t, u) ∉ listeners env'.
Proof.
  intros Hd Hs Hl.
  refine (proj2 (drains_invariant
           (fun s => Tile_getState s.1.2 t <> IDLE /\
                     (t, u) ∉ listeners s.1.2)
           _ _ _ _ _ Hd _)); [|done].
  intros [[q1 env1] n1] s2 Hc Hb [H1 H2]. simpl in H1, H2.
  destruct (turn_cases _ _ _ _ _ _ Hc Hb)
    as (el & b & _ & _ & _ & _ & [[[_ Hidle] ->]|[_ ->]]);
    unfold startLoad, discard; simpl; [|done].
  assert (t <> el_tile el) by congruence.
  rewrite getState_startLoad_ne by done. split; [done|]. set_solver.
Qed.

End PassFrame.

(** ** The budget of a pass *)

(** C1.  A drain pass ([loadMoreTiles_]) entered with
    [tilesLoading_ <= maxTotalLoading_] returns, having run the body of its
    loop only in states where [tilesLoading_ < maxTotalLoading], [newLoads <
    maxNewLoads] and the heap holds something ([drains]); every load it
    started is counted once in [tilesLoading_] and once in [newLoads];
    afterwards [tilesLoading_] does not exceed [maxTotalLoading_] and at
    most [maxNewLoads_] loads were started.  The budgets are counts, hence
    not negative. *)
Theorem drain_pass_respects_budget (q : TileQueue) (env : Env) :
  tilesLoading_ q <= maxTotalLoading_ q ->
  0 <= maxNewLoads_ q ->
  exists q' env' newLoads,
    loadMoreTiles__pass q env = Done (q', env', newLoads) /\
    loadMoreTiles_ q env = Done (q', env') /\
    drains (maxTotalLoading_ q) (maxNewLoads_ q)
      (q, env, 0) (q', env', newLoads) /\
    tilesLoading_ q' = tilesLoading_ q + newLoads /\
    Z.of_nat (loadCalls env') = Z.of_nat (loadCalls env) + newLoads /\
    tilesLoading_ q' <= maxTotalLoading_ q /\
    0 <= newLoads <= maxNewLoads_ q.
Proof.
  intros Hin Hnew.
  destruct (pass_drains q env) as ([[q' env'] n'] & Hp & Hd).
  exists q', env', n'.
  pose proof (drains_counted _ _ _ _ _ _ Hd)
    as (_ & _ & _ & _ & _ & Hn & Htl & Hlc & _).
  destruct (drains_bounded _ _ _ _ _ _ _ _ Hd Hin Hnew) as [Hb1 Hb2].
  unfold loadMoreTiles_. rewrite Hp. simpl.
  repeat split; try done; lia.
Qed.

Lemma drain_pass_respects_budget_witness :
  tilesLoading_ threeQueued <= maxTotalLoading_ threeQueued /\
  0 <= maxNewLoads_ threeQueued /\
  exists q' env' newLoads,
    loadMoreTiles__pass threeQueued Env_empty = Done (q', env', newLoads) /\
    loadMoreTiles_ threeQueued Env_empty = Done (q', env') /\
    drains 2 1 (threeQueued, Env_empty, 0) (q', env', newLoads) /\
    tilesLoading_ q' = 0 + newLoads /\
    Z.of_nat (loadCalls env') = 0 + newLoads /\
    tilesLoading_ q' <= 2 /\
    0 <= newLoads <= 1.
Proof.
  split; [vm_compute; discriminate|]. split; [vm_compute; discriminate|].
  apply (drain_pass_respects_budget threeQueued Env_empty);
    vm_compute; discriminate.
Defined.

(** ** The methods that trigger a pass *)

Lemma loadMoreTiles__Done (q : TileQueue) (env : Env) :
  exists q' env' newLoads,
    loadMoreTiles_ q env = Done (q', env') /\
    drains (maxTotalLoading_ q) (maxNewLoads_ q)
      (q, env, 0) (q', env', newLoads).
Proof.
  destruct (pass_drains q env) as ([[q' env'] n'] & Hp & Hd).
  exists q', env', n'. unfold loadMoreTiles_. by rewrite Hp.
Qed.

Lemma handleTileChange_terminal (q : TileQueue) (tile : TileRef) (env : Env) :
  terminal (Tile_getState env tile) ->
  handleTileChange q tile env =
    loadMoreTiles_ (set_tilesLoading q (tilesLoading_ q - 1))
      (call_tileChangeCallback (goog_events_unlisten env tile (uid q)) (uid q)).
Proof.
  intros Ht. unfold handleTileChange. by rewrite decide_True.
Qed.

Lemma handleTileChange_nonterminal (q : TileQueue) (tile : TileRef)
    (env : Env) :
  ~ terminal (Tile_getState env tile) ->
  handleTileChange q tile env = loadMoreTiles_ q env.
Proof.
  intros Ht. unfold handleTileChange. by rewrite decide_False.
Qed.

Lemma callbackCalls_call env u :
  callbackCalls u (call_tileChangeCallback env u) = S (callbackCalls u env).
Proof.
  unfold callbackCalls. cbn [log call_tileChangeCallback].
  rewrite List.filter_app, length_app. cbn [List.filter].
  unfold isCallbackOf at 2. rewrite bool_decide_eq_true_2 by done.
  simpl. lia.
Qed.

Lemma callbackCalls_unlisten env t u u' :
  callbackCalls u' (goog_events_unlisten env t u) = callbackCalls u' env.
Proof.
  unfold callbackCalls. cbn [log goog_events_unlisten].
  rewrite List.filter_app, length_app. cbn [List.filter].
  unfold isCallbackOf at 2. rewrite bool_decide_eq_false_2 by done.
  simpl. lia.
Qed.

(** C3.  A change event of a tile whose state is LOADED, ERROR or EMPTY,
    whichever of the three: the handler removes its listener from the tile,
    takes one off [tilesLoading_], calls the callback once and runs a drain
    pass on the result.  After the handler the listener is gone, the
    callback has run exactly once more, and [tilesLoading_] is one less
    than before plus the loads the pass started. *)
Theorem completion_frees_capacity (q : TileQueue) (tile : TileRef)
    (env : Env) :
  (Tile_getState env tile = LOADED \/ Tile_getState env tile = ERROR \/
   Tile_getState env tile = EMPTY) ->
  let q1 := set_tilesLoading q (tilesLoading_ q - 1) in
  let env1 :=
    call_tileChangeCallback (goog_events_unlisten env tile (uid q)) (uid q) in
  handleTileChange q tile env = loadMoreTiles_ q1 env1 /\
  exists q' env' newLoads,
    handleTileChange q tile env = Done (q', env') /\
    drains (maxTotalLoading_ q) (maxNewLoads_ q)
      (q1, env1, 0) (q', env', newLoads) /\
    ((tile, uid q) ∉ listeners env') /\
    callbackCalls (uid q) env' = S (callbackCalls (uid q) env) /\
    tilesLoading_ q' = tilesLoading_ q - 1 + newLoads.
Proof.
  intros Ht q1 env1.
  rewrite (handleTileChange_terminal q tile env Ht). fold q1 env1.
  split; [done|].
  destruct (loadMoreTiles__Done q1 env1) as (q' & env' & n & Hl & Hd).
  exists q', env', n. split; [done|]. split; [done|].
  pose proof (drains_counted _ _ _ _ _ _ Hd)
    as (_ & _ & _ & _ & _ & _ & Htl & _ & Hcb & _).
  split; [|split].
  - eapply drains_not_listening; [exact Hd| |].
    + change (Tile_getState env1 tile) with (Tile_getState env tile).
      destruct Ht as [->|[->| ->]]; done.
    + subst env1. simpl. set_solver.
  - rewrite Hcb. subst env1.
    by rewrite callbackCalls_call, callbackCalls_unlisten.
  - rewrite Htl. subst q1. simpl. lia.
Qed.

Lemma completion_frees_capacity_witness :
  Tile_getState (Env_tile7 ERROR) 7%nat = ERROR /\
  exists q' env' newLoads,
    handleTileChange listening7 7%nat (Env_tile7 ERROR) = Done (q', env') /\
    ((7%nat, 1%nat) ∉ listeners env') /\
    callbackCalls 1%nat env' = 1%nat /\
    tilesLoading_ q' = 1 - 1 + newLoads.
Proof.
  split; [reflexivity|].
  destruct (completion_frees_capacity listening7 7%nat (Env_tile7 ERROR))
    as (_ & q' & env' & newLoads & Hh & _ & Hl & Hcb & Htl).
  - right. left. reflexivity.
  - exists q', env', newLoads. repeat split; assumption.
Defined.

(** C10.  Every change event ends in a drain pass on the queue's own heap
    and budget.  When the tile's state is not LOADED, ERROR or EMPTY, that
    pass is all the handler does: [tilesLoading_] moves only by the loads
    the pass starts, a registered listener stays registered, and the
    callback does not run. *)
Theorem nonterminal_change_only_drains (q : TileQueue) (tile : TileRef)
    (env : Env) :
  (exists q0 env0,
      handleTileChange q tile env = loadMoreTiles_ q0 env0 /\
      uid q0 = uid q /\ base q0 = base q /\
      maxTotalLoading_ q0 = maxTotalLoading_ q /\
      maxNewLoads_ q0 = maxNewLoads_ q) /\
  (~ terminal (Tile_getState env tile) ->
   handleTileChange q tile env = loadMoreTiles_ q env /\
   exists q' env' newLoads,
     handleTileChange q tile env = Done (q', env') /\
     drains (maxTotalLoading_ q) (maxNewLoads_ q)
       (q, env, 0) (q', env', newLoads) /\
     tilesLoading_ q' = tilesLoading_ q + newLoads /\
     ((tile, uid q) ∈ listeners env -> (tile, uid q) ∈ listeners env') /\
     forall u, callbackCalls u env' = callbackCalls u env).
Proof.
  split.
  - destruct (decide (terminal (Tile_getState env tile))) as [Ht|Ht].
    + rewrite (handleTileChange_terminal q tile env Ht). eauto 10.
    + rewrite (handleTileChange_nonterminal q tile env Ht). eauto 10.
  - intros Ht. rewrite (handleTileChange_nonterminal q tile env Ht).
    split; [done|].
    destruct (loadMoreTiles__Done q env) as (q' & env' & n & Hl & Hd).
    exists q', env', n. split; [done|]. split; [done|].
    pose proof (drains_counted _ _ _ _ _ _ Hd)
      as (_ & _ & _ & _ & _ & _ & Htl & _ & Hcb & Hsub & _).
    split; [lia|]. split; [|done]. intros Hin. by apply Hsub.
Qed.

Lemma nonterminal_change_only_drains_witness :
  Tile_getState (Env_tile7 LOADING) 7%nat = LOADING /\
  ((7%nat, 1%nat) ∈ listeners (Env_tile7 LOADING)) /\
  handleTileChange listening7 7%nat (Env_tile7 LOADING)
    = loadMoreTiles_ listening7 (Env_tile7 LOADING) /\
  exists q' env' newLoads,
    handleTileChange listening7 7%nat (Env_tile7 LOADING) = Done (q', env') /\
    tilesLoading_ q' = 1 + newLoads /\
    ((7%nat, 1%nat) ∈ listeners env') /\
    callbackCalls 1%nat env' = 0%nat.
Proof.
  assert (Hin : (7%nat, 1%nat) ∈ listeners (Env_tile7 LOADING)).
  { apply elem_of_union_l, elem_of_singleton. reflexivity. }
  split; [reflexivity|]. split; [exact Hin|].
  destruct (proj2 (nonterminal_change_only_drains listening7 7%nat
                     (Env_tile7 LOADING)))
    as (Heq & q' & env' & newLoads & Hh & _ & Htl & Hl & Hcb).
  - intros [H|[H|H]]; discriminate H.
  - split; [exact Heq|]. exists q', env', newLoads.
    split; [exact Hh|]. split; [exact Htl|]. split; [exact (Hl Hin)|].
    exact (Hcb 1%nat).
Defined.

(** C7.  [loadMoreTiles(maxTotalLoading, maxNewLoads)] stores the two values
    it is given, touches no other field and nothing of the store, and runs
    one drain pass; it returns whatever the state of the queue, loads
    outstanding or not, and the two budgets are still the given values
    afterwards. *)
Theorem loadMoreTiles_sets_budget_and_drains (q : TileQueue)
    (maxTotalLoading maxNewLoads : Z) (env : Env) :
  let q1 := set_budget q maxTotalLoading maxNewLoads in
  (maxTotalLoading_ q1 = maxTotalLoading /\ maxNewLoads_ q1 = maxNewLoads /\
   uid q1 = uid q /\ base q1 = base q /\ tilesLoading_ q1 = tilesLoading_ q) /\
  loadMoreTiles q maxTotalLoading maxNewLoads env = loadMoreTiles_ q1 env /\
  exists q' env' newLoads,
    loadMoreTiles q maxTotalLoading maxNewLoads env = Done (q', env') /\
    drains maxTotalLoading maxNewLoads (q1, env, 0) (q', env', newLoads) /\
    maxTotalLoading_ q' = maxTotalLoading /\
    maxNewLoads_ q' = maxNewLoads.
Proof.
  intros q1. split; [done|]. split; [done|].
  destruct (loadMoreTiles__Done q1 env) as (q' & env' & n & Hl & Hd).
  exists q', env', n. split; [done|]. split; [done|].
  pose proof (drains_counted _ _ _ _ _ _ Hd) as (_ & H1 & H2 & _).
  done.
Qed.

(** ** What a turn of the loop does with the element it dequeued *)

(** C4.  The element a turn dequeues is judged by the priority function as
    it answers now, not by the priority stored in the heap: it is started
    exactly when that answer is not [DROP] and the tile is Idle.  When the
    answer is [DROP] the element leaves the heap and nothing else happens:
    the store (tile states, listeners, log of loads) is the same, and so are
    [tilesLoading_] and [newLoads]. *)
Theorem dropped_at_dequeue (q : TileQueue) (env : Env) (newLoads : Z)
    (tileStruct : Element) (b : PriorityQueue.t) :
  PriorityQueue.dequeue (base q) = Done (tileStruct, b) ->
  loadMoreTiles__body (q, env, newLoads) =
    Done (if decide (loadable q env tileStruct)
          then startLoad q env newLoads tileStruct b
          else discard q env newLoads b) /\
  (PriorityQueue.priorityFunction_ (base q) tileStruct = PriorityQueue.DROP ->
   loadMoreTiles__body (q, env, newLoads) = Done (set_base q b, env, newLoads)
   /\ tilesLoading_ (set_base q b) = tilesLoading_ q).
Proof.
  intros Hd.
  assert (Hn : (0 < getCount q)%nat).
  { destruct (decide (0 < getCount q)%nat) as [|Hn]; [done|].
    rewrite PriorityQueueFacts.dequeue_empty in Hd; [done|].
    unfold getCount in Hn. lia. }
  destruct (body_Done q env newLoads Hn) as (el & b' & Hd' & _ & _ & _ & _ & Hb).
  rewrite Hd in Hd'. injection Hd' as <- <-.
  split; [done|]. intros Hp. split; [|done].
  rewrite Hb, decide_False; [done|]. unfold loadable. tauto.
Qed.

Lemma dropped_at_dequeue_witness :
  exists b,
    PriorityQueue.priorities_ (base staleQueue) = [PriorityQueue.Num 0] /\
    PriorityQueue.dequeue (base staleQueue) = Done (mkElement 7%nat [], b) /\
    PriorityQueue.priorityFunction_ (base staleQueue) (mkElement 7%nat [])
      = PriorityQueue.DROP /\
    loadMoreTiles__body (staleQueue, Env_empty, 0)
      = Done (set_base staleQueue b, Env_empty, 0).
Proof.
  eexists. split; [reflexivity|]. split; [vm_compute; reflexivity|].
  split; [reflexivity|].
  apply (dropped_at_dequeue staleQueue Env_empty 0 (mkElement 7%nat [])).
  - vm_compute. reflexivity.
  - reflexivity.
Defined.

(** C5.  A turn that dequeues an element whose tile is not Idle (Loading
    already, or in a terminal state) only removes it from the heap: the
    store, [tilesLoading_] and [newLoads] are what they were, and the loop
    goes on from there.  A tile that is Loading is therefore never counted
    a second time. *)
Theorem non_idle_is_discarded (maxTotalLoading maxNewLoads : Z) (fuel : nat)
    (q : TileQueue) (env : Env) (newLoads : Z)
    (tileStruct : Element) (b : PriorityQueue.t) :
  loadMoreTiles__cond maxTotalLoading maxNewLoads (q, env, newLoads) = true ->
  PriorityQueue.dequeue (base q) = Done (tileStruct, b) ->
  Tile_getState env (el_tile tileStruct) <> IDLE ->
  loadMoreTiles__body (q, env, newLoads) = Done (set_base q b, env, newLoads)
  /\ tilesLoading_ (set_base q b) = tilesLoading_ q
  /\ loadMoreTiles__loop (S fuel) maxTotalLoading maxNewLoads
       (q, env, newLoads)
     = loadMoreTiles__loop fuel maxTotalLoading maxNewLoads
         (set_base q b, env, newLoads).
Proof.
  intros Hc Hd Hs.
  pose proof Hc as Hc'. apply cond_true in Hc' as (_ & _ & Hn).
  destruct (body_Done q env newLoads Hn) as (el & b' & Hd' & _ & _ & _ & _ & Hb).
  rewrite Hd in Hd'. injection Hd' as <- <-.
  assert (Hb' : loadMoreTiles__body (q, env, newLoads)
                = Done (set_base q b, env, newLoads)).
  { rewrite Hb, decide_False; [done|]. unfold loadable. tauto. }
  split; [done|]. split; [done|].
  cbn [loadMoreTiles__loop]. rewrite Hc, Hb'. done.
Qed.

Lemma non_idle_is_discarded_witness :
  let q := queued (new 1%nat wantAll) (elementsFrom 7%nat 1%nat) in
  exists b,
    Tile_getState Env_loading7 7%nat = LOADING /\
    loadMoreTiles__body (q, Env_loading7, 0) = Done (set_base q b, Env_loading7, 0)
    /\ tilesLoading_ (set_base q b) = tilesLoading_ q
    /\ loadMoreTiles__loop 1%nat 16 16 (q, Env_loading7, 0)
       = loadMoreTiles__loop 0%nat 16 16 (set_base q b, Env_loading7, 0).
Proof.
  intros q. eexists. split; [reflexivity|].
  apply (non_idle_is_discarded 16 16 0%nat q Env_loading7 0 (mkElement 7%nat [])).
  - reflexivity.
  - vm_compute. reflexivity.
  - vm_compute. discriminate.
Defined.

(** ** No dequeue on an empty heap *)

Lemma step_Done (s : TileQueue * Env) (ev : Event) :
  exists s', step s ev = Done s'.
Proof.
  destruct s as [q env]. destruct ev as [el|M N|t st]; simpl.
  - unfold enqueue.
    destruct (loadMoreTiles__Done
                (set_base q (PriorityQueue.enqueue (base q) el)) env)
      as (q' & env' & n & Hl & _). eauto.
  - unfold loadMoreTiles.
    destruct (loadMoreTiles__Done (set_budget q M N) env)
      as (q' & env' & n & Hl & _). eauto.
  - unfold Tile_dispatchChange. case_decide; [|eauto].
    unfold handleTileChange. case_decide.
    + match goal with
      | |- context [loadMoreTiles_ ?q1 ?env1] =>
          destruct (loadMoreTiles__Done q1 env1) as (q' & env' & n & Hl & _)
      end. eauto.
    + match goal with
      | |- context [loadMoreTiles_ ?q1 ?env1] =>
          destruct (loadMoreTiles__Done q1 env1) as (q' & env' & n & Hl & _)
      end. eauto.
Qed.

Lemma run_Done (evs : list Event) (s : TileQueue * Env) :
  exists s', run evs s = Done s'.
Proof.
  revert s. induction evs as [|ev evs IH]; intros s; simpl; [eauto|].
  destruct (step_Done s ev) as (s1 & ->). simpl. apply IH.
Qed.

(** C8.  [dequeue] on an empty heap throws, and a turn of the loop that
    found the heap empty would pass the error on; but the condition of the
    loop holds only when the heap holds something, and there [dequeue]
    returns.  Hence every sequence of enqueues, budget changes and tile
    change events, from any state of the queue and the store, runs to its
    end without the error. *)
Theorem scheduler_never_dequeues_empty (evs : list Event) (q : TileQueue)
    (env : Env) :
  (forall q0 env0 n0, getCount q0 = 0%nat ->
     PriorityQueue.dequeue (base q0) = Throw EmptyQueueError /\
     loadMoreTiles__body (q0, env0, n0) = Throw EmptyQueueError) /\
  (forall maxTotalLoading maxNewLoads q0 env0 n0,
     loadMoreTiles__cond maxTotalLoading maxNewLoads (q0, env0, n0) = true ->
     (0 < getCount q0)%nat /\
     exists tileStruct b,
       PriorityQueue.dequeue (base q0) = Done (tileStruct, b)) /\
  (exists q' env', run evs (q, env) = Done (q', env')) /\
  run evs (q, env) <> Throw EmptyQueueError.
Proof.
  split; [|split; [|split]].
  - intros q0 env0 n0 Hn.
    assert (Hd : PriorityQueue.dequeue (base q0) = Throw EmptyQueueError)
      by (by apply PriorityQueueFacts.dequeue_empty).
    split; [done|]. unfold loadMoreTiles__body. by rewrite Hd.
  - intros M N q0 env0 n0 Hc. apply cond_true in Hc as (_ & _ & Hn).
    split; [done|].
    destruct (body_Done q0 env0 n0 Hn) as (el & b & Hd & _). eauto.
  - destruct (run_Done evs (q, env)) as ([q' env'] & Hr). eauto.
  - destruct (run_Done evs (q, env)) as (s' & ->). done.
Qed.

(** ** One enqueue *)

Section EnqueueStep.

Variables (q : TileQueue) (element : Element) (env : Env).
Hypothesis Hready : ready q.
Hypothesis Hfull : full q.
Hypothesis Hnew : 0 < maxNewLoads_ q.
Hypothesis Hfresh :
  PriorityQueue.indexMap_ (base q) !! el_tile element = None.
Hypothesis Hwanted :
  PriorityQueue.priorityFunction_ (base q) element <> PriorityQueue.DROP.

Let q1 : TileQueue :=
  set_base q (PriorityQueue.enqueue (base q) element).

Lemma enqueued_ready : ready q1.
Proof.
  destruct Hready as [Hc Hk]. split; simpl.
  - by apply PriorityQueueFacts.enqueue_consistent.
  - intros e.
    destruct (PriorityQueueFacts.enqueue_functions (base q) element)
      as [_ ->]. apply Hk.
Qed.

Lemma enqueued_getCount : getCount q1 = S (getCount q).
Proof.
  unfold getCount. simpl.
  apply PriorityQueueFacts.enqueue_fresh_getCount.
  destruct Hready as [_ Hk]. by rewrite Hk.
Qed.

Lemma enqueued_dom :
  dom (PriorityQueue.indexMap_ (base q1))
  = {[el_tile element]} ∪ dom (PriorityQueue.indexMap_ (base q)).
Proof.
  destruct Hready as [Hc Hk]. simpl.
  rewrite PriorityQueueFacts.enqueue_dom by done. by rewrite Hk.
Qed.

(** With no room to load, the element just waits in the heap. *)
Lemma enqueue_saturated :
  maxTotalLoading_ q <= tilesLoading_ q ->
  enqueue q element env = Done (q1, env).
Proof.
  intros Hsat. unfold enqueue, loadMoreTiles_, loadMoreTiles__pass.
  fold q1. rewrite enqueued_getCount. cbn [loadMoreTiles__loop].
  assert (Hc : loadMoreTiles__cond (maxTotalLoading_ q1) (maxNewLoads_ q1)
                 (q1, env, 0) = false).
  { apply cond_false. left. simpl. lia. }
  rewrite Hc. done.
Qed.

(** With room to load, the heap was empty: the element is dequeued at once
    and, its tile being Idle, loaded; or, its tile not being Idle,
    discarded. *)
Lemma enqueue_room :
  tilesLoading_ q < maxTotalLoading_ q ->
  exists b,
    PriorityQueue.getCount b = 0%nat /\
    PriorityQueue.consistent b /\
    PriorityQueue.priorityFunction_ b
      = PriorityQueue.priorityFunction_ (base q) /\
    PriorityQueue.keyFunction_ b = PriorityQueue.keyFunction_ (base q) /\
    dom (PriorityQueue.indexMap_ b)
      ⊆ dom (PriorityQueue.indexMap_ (base q)) /\
    enqueue q element env =
      Done (if decide (Tile_getState env (el_tile element) = IDLE)
            then (set_tilesLoading (set_base q b) (tilesLoading_ q + 1),
                  Tile_load
                    (goog_events_listen env (el_tile element) (uid q))
                    (el_tile element))
            else (set_base q b, env)).
Proof.
  intros Hroom.
  assert (Hn0 : getCount q = 0%nat) by (destruct Hfull; [done|lia]).
  pose proof enqueued_getCount as Hn1. rewrite Hn0 in Hn1.
  assert (Hels : PriorityQueue.elements_ (base q1) = [element]).
  { simpl. destruct Hready as [Hc _].
    by apply PriorityQueueFacts.enqueue_empty. }
  destruct (PriorityQueueFacts.enqueue_functions (base q) element)
    as [Hpf1 Hkf1].
  assert (Hpos : (0 < getCount q1)%nat) by lia.
  destruct (body_Done q1 env 0 Hpos)
    as (root & b & Hd & H0 & Hcnt & Hpf & Hkf & Hb).
  rewrite Hels in H0. injection H0 as <-.
  destruct (PriorityQueueFacts.dequeue_consistent _ _ _
              (proj1 enqueued_ready) Hd) as [Hcb Hdom].
  exists b. split; [lia|]. split; [done|].
  split; [by rewrite Hpf|]. split; [by rewrite Hkf|].
  split.
  { rewrite Hdom, enqueued_dom. destruct enqueued_ready as [_ Hk].
    rewrite Hk. unfold Tile_getKey. set_solver. }
  unfold enqueue, loadMoreTiles_, loadMoreTiles__pass. fold q1.
  rewrite Hn1. cbn [loadMoreTiles__loop].
  assert (Hc : loadMoreTiles__cond (maxTotalLoading_ q1) (maxNewLoads_ q1)
                 (q1, env, 0) = true).
  { apply cond_true. simpl. fold q1. lia. }
  rewrite Hc, Hb. cbn [mbind Outcome_bind].
  assert (Hadm : loadable q1 env element
                 <-> Tile_getState env (el_tile element) = IDLE).
  { unfold loadable. simpl. rewrite Hpf1. tauto. }
  destruct (decide (Tile_getState env (el_tile element) = IDLE)) as [Hi|Hi].
  - rewrite decide_True by (by apply Hadm). unfold startLoad.
    match goal with
    | |- context [loadMoreTiles__cond ?M ?N ?s] =>
        assert (Hc2 : loadMoreTiles__cond M N s = false)
          by (apply cond_false; right; right; unfold getCount; simpl; lia)
    end.
    rewrite Hc2. done.
  - rewrite decide_False by (by rewrite Hadm). unfold discard.
    match goal with
    | |- context [loadMoreTiles__cond ?M ?N ?s] =>
        assert (Hc2 : loadMoreTiles__cond M N s = false)
          by (apply cond_false; right; right; unfold getCount; simpl; lia)
    end.
    rewrite Hc2. done.
Qed.

End EnqueueStep.

Lemma not_queued_mono (b b' : PriorityQueue.t) (extra : gset Key) (t : Key) :
  dom (PriorityQueue.indexMap_ b') ⊆ extra ∪ dom (PriorityQueue.indexMap_ b) ->
  t ∉ extra ->
  PriorityQueue.indexMap_ b !! t = None ->
  PriorityQueue.indexMap_ b' !! t = None.
Proof.
  intros Hsub Hne Hb. apply not_elem_of_dom. apply not_elem_of_dom in Hb.
  intros Hin. apply Hsub in Hin. apply elem_of_union in Hin as [Hin|Hin]; done.
Qed.

(** One enqueue of a fresh, wanted element into a queue that is [full]: the
    three things that can happen. *)
Lemma enqueue_step (q : TileQueue) (element : Element) (env : Env) :
  ready q -> full q -> 0 < maxNewLoads_ q ->
  PriorityQueue.indexMap_ (base q) !! el_tile element = None ->
  PriorityQueue.priorityFunction_ (base q) element <> PriorityQueue.DROP ->
  exists q' env',
    enqueue q element env = Done (q', env') /\
    ready q' /\ full q' /\ sameSetup q q' /\
    (forall t, t <> el_tile element ->
       PriorityQueue.indexMap_ (base q) !! t = None ->
       PriorityQueue.indexMap_ (base q') !! t = None) /\
    (forall t, t <> el_tile element ->
       Tile_getState env' t = Tile_getState env t) /\
    ((tilesLoading_ q < maxTotalLoading_ q /\
      Tile_getState env (el_tile element) = IDLE /\
      tilesLoading_ q' = tilesLoading_ q + 1 /\ getCount q' = getCount q /\
      Tile_getState env' (el_tile element) = LOADING) \/
     (tilesLoading_ q < maxTotalLoading_ q /\
      Tile_getState env (el_tile element) <> IDLE /\
      tilesLoading_ q' = tilesLoading_ q /\ getCount q' = getCount q /\
      env' = env) \/
     (maxTotalLoading_ q <= tilesLoading_ q /\
      tilesLoading_ q' = tilesLoading_ q /\ getCount q' = S (getCount q) /\
      env' = env)).
Proof.
  intros Hready Hfull Hnew Hfresh Hwanted.
  destruct (decide (tilesLoading_ q < maxTotalLoading_ q)) as [Hroom|Hsat].
  - destruct (enqueue_room q element env Hready Hfull Hnew Hfresh Hwanted Hroom)
      as (b & Hcnt & Hcb & Hpf & Hkf & Hdom & He).
    assert (Hn0 : getCount q = 0%nat) by (destruct Hfull; [done|lia]).
    assert (Hfr : forall t, t <> el_tile element ->
              PriorityQueue.indexMap_ (base q) !! t = None ->
              PriorityQueue.indexMap_ b !! t = None).
    { intros t _ Ht. apply (not_queued_mono (base q) b ∅ t); [|done|done].
      clear -Hdom. set_solver. }
    assert (Hrb : forall e, PriorityQueue.keyFunction_ b e
                            = Tile_getKey (el_tile e)).
    { intros e. rewrite Hkf. apply Hready. }
    destruct (decide (Tile_getState env (el_tile element) = IDLE)) as [Hi|Hi].
    + eexists _, _. split; [exact He|].
      split; [by split|]. split; [by left|]. split; [by repeat split|].
      split; [done|]. split.
      { intros t Ht. by apply getState_startLoad_ne. }
      left. split; [done|]. split; [done|]. split; [done|].
      split; [unfold getCount in *; simpl; lia|].
      by apply getState_startLoad_eq.
    + eexists _, _. split; [exact He|].
      split; [by split|]. split; [by left|]. split; [by repeat split|].
      split; [done|]. split; [done|].
      right. left. repeat split; try done.
      unfold getCount in *. simpl. lia.
  - assert (Hsat' : maxTotalLoading_ q <= tilesLoading_ q) by lia.
    eexists _, _.
    split; [exact (enqueue_saturated q element env Hready Hfresh Hsat')|].
    split; [by apply enqueued_ready|]. split; [by right|].
    split.
    { repeat split; try done. simpl.
      apply PriorityQueueFacts.enqueue_functions. }
    split.
    { intros t Ht Hq.
      apply (not_queued_mono (base q) _ {[el_tile element]} t); [|set_solver|done].
      rewrite (enqueued_dom q element Hready). done. }
    split; [done|].
    right. right. repeat split; try done.
    by apply enqueued_getCount.
Qed.

Lemma sameSetup_trans (q1 q2 q3 : TileQueue) :
  sameSetup q1 q2 -> sameSetup q2 q3 -> sameSetup q1 q3.
Proof. unfold sameSetup. intros (? & ? & ? & ?) (? & ? & ? & ?). repeat split; congruence. Qed.

Lemma loadingTiles_cons (env : Env) (t : TileRef) (ts : list TileRef) :
  loadingTiles env (t :: ts) =
    if decide (Tile_getState env t = LOADING)
    then t :: loadingTiles env ts else loadingTiles env ts.
Proof. unfold loadingTiles. by rewrite filter_cons. Qed.

(** ** A run of enqueues into one queue *)

(** Fresh Idle tiles, all wanted, enqueued one by one into a [full] queue:
    the first ones are loaded until [maxTotalLoading_] is reached, the rest
    wait in the heap. *)
Lemma enqueue_phase (els : list Element) : forall (q : TileQueue) (env : Env),
  ready q -> full q -> 0 < maxNewLoads_ q ->
  NoDup (el_tile <$> els) ->
  (forall el, el ∈ els ->
     Tile_getState env (el_tile el) = IDLE /\
     PriorityQueue.indexMap_ (base q) !! el_tile el = None /\
     PriorityQueue.priorityFunction_ (base q) el <> PriorityQueue.DROP) ->
  exists q' env',
    run (Enqueue <$> els) (q, env) = Done (q', env') /\
    ready q' /\ full q' /\ sameSetup q q' /\
    (forall t, t ∉ el_tile <$> els ->
       Tile_getState env' t = Tile_getState env t) /\
    let a := Z.min (Z.of_nat (length els))
               (Z.max 0 (maxTotalLoading_ q - tilesLoading_ q)) in
    tilesLoading_ q' = tilesLoading_ q + a /\
    Z.of_nat (getCount q') = Z.of_nat (getCount q) + Z.of_nat (length els) - a
    /\ Z.of_nat (length (loadingTiles env' (el_tile <$> els))) = a.
Proof.
  induction els as [|el rest IH]; intros q env Hready Hfull Hnew Hnd Hels.
  { exists q, env. split; [done|]. do 3 (split; [done|]). split; [done|].
    cbv zeta. rewrite fmap_nil. unfold loadingTiles. rewrite filter_nil.
    cbn [length]. lia. }
  rewrite fmap_cons in Hnd. apply NoDup_cons in Hnd as [Hnotin Hnd].
  destruct (Hels el) as (Hidle & Hfresh & Hwanted); [by left|].
  destruct (enqueue_step q el env Hready Hfull Hnew Hfresh Hwanted)
    as (q1 & env1 & He & Hready1 & Hfull1 & Hsame1 & Hfr1 & Hst1 & Hcases).
  pose proof Hsame1 as (Hu1 & HM1 & HN1 & Hpf1).
  assert (Hne : forall el', el' ∈ rest -> el_tile el' <> el_tile el).
  { intros el' Hin Heq. apply Hnotin. rewrite <- Heq.
    by apply list_elem_of_fmap_2. }
  destruct (IH q1 env1 Hready1 Hfull1) as
    (q' & env' & Hrun & Hready' & Hfull' & Hsame' & Hst' & Htl & Hcnt & Hld).
  { lia. }
  { done. }
  { intros el' Hin. destruct (Hels el') as (Hi' & Hf' & Hw'); [by right|].
    split; [|split].
    - rewrite Hst1; [done|]. by apply Hne.
    - apply Hfr1; [|done]. by apply Hne.
    - by rewrite Hpf1. }
  exists q', env'. split.
  { rewrite fmap_cons. cbn [run step]. rewrite He. exact Hrun. }
  split; [done|]. split; [done|].
  split; [by apply (sameSetup_trans q q1 q')|].
  split.
  { intros t Ht. rewrite fmap_cons in Ht. apply not_elem_of_cons in Ht as [Ht1 Ht2].
    rewrite Hst' by done. by apply Hst1. }
  rewrite fmap_cons, loadingTiles_cons, (Hst' _ Hnotin).
  cbn [length]. rewrite HM1 in *.
  destruct Hcases as [(Hroom & _ & Htl1 & Hc1 & Hs1)
                     |[(_ & Hni & _)|(Hsat & Htl1 & Hc1 & ->)]].
  - rewrite Hs1, decide_True by done. cbn [length]. lia.
  - done.
  - rewrite Hidle, decide_False by done. lia.
Qed.

(** ** Accounting: [tilesLoading_] and the tiles that are Loading *)

Lemma accounted_not_idle (q : TileQueue) (env : Env) (t : TileRef) :
  accounted q env -> Tile_getState env t = IDLE ->
  (t, uid q) ∉ listeners env.
Proof.
  intros [_ Hl] Hi Hin. apply Hl in Hin as [_ Hs]. congruence.
Qed.

Lemma drains_accounted maxTotalLoading maxNewLoads q env n q' env' n' :
  drains maxTotalLoading maxNewLoads (q, env, n) (q', env', n') ->
  accounted q env -> accounted q' env'.
Proof.
  intros Hd Ha.
  refine (drains_invariant (fun s => accounted s.1.1 s.1.2)
            _ _ _ _ _ Hd Ha).
  intros [[q1 env1] n1] s2 Hc Hb H1. simpl in H1.
  destruct (turn_cases _ _ _ _ _ _ Hc Hb)
    as (el & b & _ & _ & _ & _ & [[[_ Hidle] ->]|[_ ->]]);
    unfold startLoad, discard; simpl; [|done].
  pose proof (accounted_not_idle _ _ _ H1 Hidle) as Hnotin.
  destruct H1 as [Hsz Hl]. split; simpl.
  - rewrite size_union by set_solver. rewrite size_singleton. lia.
  - intros t u Hin. apply elem_of_union in Hin as [Hin|Hin].
    + apply elem_of_singleton in Hin. injection Hin as -> ->.
      split; [done|]. by apply getState_startLoad_eq.
    + destruct (Hl _ _ Hin) as [-> Hs]. split; [done|].
      rewrite getState_startLoad_ne; [done|]. intros ->. congruence.
Qed.

(** After a pass whose per-pass budget is no smaller than the total one, the
    queue is [full]. *)
Lemma drains_full q env q' env' n' :
  drains (maxTotalLoading_ q) (maxNewLoads_ q) (q, env, 0) (q', env', n') ->
  0 <= tilesLoading_ q -> maxTotalLoading_ q <= maxNewLoads_ q ->
  full q'.
Proof.
  intros Hd H0 Hle.
  pose proof (drains_final _ _ _ _ Hd) as Hf. apply cond_false in Hf.
  pose proof (drains_counted _ _ _ _ _ _ Hd)
    as (_ & HM & _ & _ & _ & _ & Htl & _).
  unfold full. rewrite HM. lia.
Qed.

Lemma loadMoreTiles__stable (q : TileQueue) (env : Env) :
  accounted q env -> maxTotalLoading_ q <= maxNewLoads_ q ->
  exists q' env',
    loadMoreTiles_ q env = Done (q', env') /\
    stable q' env' /\ sameSetup q q'.
Proof.
  intros Ha Hle.
  destruct (loadMoreTiles__Done q env) as (q' & env' & n & Hl & Hd).
  exists q', env'. split; [done|].
  pose proof (drains_counted _ _ _ _ _ _ Hd)
    as (Hu & HM & HN & Hpf & _).
  split; [|done]. split; [|split].
  - by eapply drains_accounted.
  - eapply drains_full; [exact Hd| |done]. destruct Ha as [-> _]. lia.
  - lia.
Qed.

Lemma getState_setState_ne env t s t' :
  t' <> t -> Tile_getState (Tile_setState env t s) t' = Tile_getState env t'.
Proof. intros Hne. unfold Tile_getState. simpl. by rewrite lookup_insert_ne. Qed.

Lemma getState_setState_eq env t s :
  Tile_getState (Tile_setState env t s) t = s.
Proof. unfold Tile_getState. simpl. by rewrite lookup_insert_eq. Qed.

(** A tile reaching a terminal state, whichever tile and whenever. *)
Lemma completion_stable (q : TileQueue) (env : Env) (t : TileRef)
    (s : TileState) :
  stable q env -> terminal s ->
  exists q' env',
    step (q, env) (TileChange t s) = Done (q', env') /\
    stable q' env' /\ sameSetup q q'.
Proof.
  intros (Ha & Hfull & Hle) Hs. cbn [step]. unfold Tile_dispatchChange.
  destruct Ha as [Hsz Hl].
  destruct (decide ((t, uid q) ∈ listeners (Tile_setState env t s)))
    as [Hin|Hnin].
  - rewrite handleTileChange_terminal
      by (by rewrite getState_setState_eq).
    match goal with
    | |- context [loadMoreTiles_ ?q1 ?env1] =>
        destruct (loadMoreTiles__stable q1 env1)
          as (q' & env' & Hl' & Hst' & Hsame'); [|done|by eauto]
    end.
    simpl in Hin. split; simpl.
    + rewrite size_difference by set_solver. rewrite size_singleton.
      assert (size (listeners env) <> 0%nat).
      { intros H0. apply size_empty_inv in H0. set_solver. }
      lia.
    + intros t' u Hin'. apply elem_of_difference in Hin' as [Hin' Hne].
      destruct (Hl _ _ Hin') as [-> Hst]. split; [done|].
      change (Tile_getState (Tile_setState env t s) t' = LOADING).
      rewrite getState_setState_ne; [done|]. intros ->. set_solver.
  - exists q, (Tile_setState env t s). split; [done|]. split; [|done].
    split; [|done]. split; [done|]. simpl in *.
    intros t' u Hin'. destruct (Hl _ _ Hin') as [-> Hst]. split; [done|].
    rewrite getState_setState_ne; [done|]. intros ->. done.
Qed.

Lemma completions_stable (completions : list (TileRef * TileState)) :
  forall (q : TileQueue) (env : Env),
  stable q env -> Forall (fun c => terminal c.2) completions ->
  exists q' env',
    run ((fun c => TileChange c.1 c.2) <$> completions) (q, env)
      = Done (q', env') /\
    stable q' env' /\ sameSetup q q'.
Proof.
  induction completions as [|[t s] cs IH]; intros q env Hst Hall.
  { exists q, env. done. }
  apply Forall_cons in Hall as [Hs Hall].
  destruct (completion_stable q env t s Hst Hs)
    as (q1 & env1 & He & Hst1 & Hsame1).
  destruct (IH q1 env1 Hst1 Hall) as (q' & env' & Hrun & Hst' & Hsame').
  exists q', env'. split.
  { rewrite fmap_cons. cbn [run]. cbn [fst snd]. rewrite He. exact Hrun. }
  split; [done|]. by apply (sameSetup_trans q q1 q').
Qed.

Lemma enqueue_stable (q : TileQueue) (element : Element) (env : Env) :
  stable q env ->
  exists q' env',
    enqueue q element env = Done (q', env') /\
    stable q' env' /\ sameSetup q q'.
Proof.
  intros (Ha & _ & Hle). unfold enqueue.
  destruct (loadMoreTiles__stable
              (set_base q (PriorityQueue.enqueue (base q) element)) env)
    as (q' & env' & Hl & Hst & Hsame); [done..|].
  exists q', env'. split; [done|]. split; [done|].
  destruct Hsame as (? & ? & ? & Hpf). repeat split; try done.
  rewrite Hpf. simpl. apply PriorityQueueFacts.enqueue_functions.
Qed.

Lemma enqueues_stable (els : list Element) :
  forall (q : TileQueue) (env : Env),
  stable q env ->
  exists q' env',
    run (Enqueue <$> els) (q, env) = Done (q', env') /\ stable q' env'.
Proof.
  induction els as [|el rest IH]; intros q env Hst.
  { exists q, env. done. }
  destruct (enqueue_stable q el env Hst) as (q1 & env1 & He & Hst1 & _).
  destruct (IH q1 env1 Hst1) as (q' & env' & Hrun & Hst').
  exists q', env'. split; [|done].
  rewrite fmap_cons. cbn [run step]. rewrite He. exact Hrun.
Qed.

Lemma allSettled_getState (env : Env) :
  allSettled env <-> forall t, Tile_getState env t <> LOADING.
Proof.
  unfold allSettled, Tile_getState. split.
  - intros Hall t. destruct (tiles env !! t) as [s|] eqn:Hl; simpl; [|done].
    by apply (Hall t).
  - intros Hall t s Hl. specialize (Hall t). by rewrite Hl in Hall.
Qed.

(** When no tile is Loading, a [stable] queue with a positive budget has
    nothing in flight and nothing queued. *)
Lemma stable_settled (q : TileQueue) (env : Env) :
  stable q env -> 0 < maxTotalLoading_ q ->
  (forall t, Tile_getState env t <> LOADING) ->
  getCount q = 0%nat /\ getTilesLoading q = 0.
Proof.
  intros ([Hsz Hl] & Hfull & _) HM Hnone.
  assert (He : listeners env = ∅).
  { apply set_eq. intros [t u]. split; [|set_solver].
    intros Hin. destruct (Hl _ _ Hin) as [_ Hs]. by destruct (Hnone t). }
  rewrite He, size_empty in Hsz. unfold getTilesLoading.
  split; [|done]. destruct Hfull; [done|lia].
Qed.

(** ** A fresh queue *)

Lemma new_ready (id : QueueId) (pf : TilePriorityFunction) : ready (new id pf).
Proof.
  split; [split|]; simpl; try done.
  intros k a. rewrite lookup_empty. split; [done|].
  intros (e & He & _). by rewrite lookup_nil in He.
Qed.

Lemma new_accounted (id : QueueId) (pf : TilePriorityFunction) (env : Env) :
  listeners env = ∅ -> accounted (new id pf) env.
Proof.
  intros He. split; simpl.
  - by rewrite He, size_empty.
  - intros t u. rewrite He. set_solver.
Qed.

Lemma new_loadMoreTiles (id : QueueId) (pf : TilePriorityFunction)
    (maxTotalLoading maxNewLoads : Z) (env : Env) :
  loadMoreTiles (new id pf) maxTotalLoading maxNewLoads env
  = Done (set_budget (new id pf) maxTotalLoading maxNewLoads, env).
Proof.
  unfold loadMoreTiles, loadMoreTiles_, loadMoreTiles__pass.
  change (getCount (set_budget (new id pf) maxTotalLoading maxNewLoads))
    with 0%nat.
  cbn [loadMoreTiles__loop].
  match goal with
  | |- context [loadMoreTiles__cond ?M ?N ?s] =>
      assert (Hc : loadMoreTiles__cond M N s = false)
        by (apply cond_false; right; right; done)
  end.
  rewrite Hc. done.
Qed.

(** ** The scenarios of the test-suite *)

(** C2.  A fresh queue, its budget set to 2 and 2 by [loadMoreTiles(2, 2)],
    then 20 Idle tiles enqueued one by one (distinct tiles, none of them
    dropped by the priority function): 2 of the tiles are Loading,
    [getTilesLoading()] is 2 and [getCount()] is 18.  From there, whichever
    tiles reach LOADED, ERROR or EMPTY and in whatever order, every change
    event is handled, and once no tile is Loading any more, [getCount()]
    and [getTilesLoading()] are both 0. *)
Theorem budget_respected (id : QueueId) (pf : TilePriorityFunction)
    (els : list Element) (env : Env) :
  length els = 20%nat ->
  NoDup (el_tile <$> els) ->
  (forall el, el ∈ els ->
     Tile_getState env (el_tile el) = IDLE /\
     pf (el_tile el) (el_args el) <> PriorityQueue.DROP) ->
  listeners env = ∅ ->
  exists q env',
    run (LoadMoreTiles 2 2 :: (Enqueue <$> els)) (new id pf, env)
      = Done (q, env') /\
    length (loadingTiles env' (el_tile <$> els)) = 2%nat /\
    getTilesLoading q = 2 /\
    getCount q = 18%nat /\
    forall completions : list (TileRef * TileState),
      Forall (fun c => terminal c.2) completions ->
      exists q' env'',
        run ((fun c => TileChange c.1 c.2) <$> completions) (q, env')
          = Done (q', env'') /\
        ((forall t, Tile_getState env'' t <> LOADING) ->
         getCount q' = 0%nat /\ getTilesLoading q' = 0).
Proof.
  intros Hlen Hnd Hels Hnol.
  set (q0 := set_budget (new id pf) 2 2).
  assert (Hready0 : ready q0) by apply (new_ready id pf).
  assert (Hstable0 : stable q0 env).
  { split; [by apply (new_accounted id pf)|]. split; [by left|done]. }
  destruct (enqueue_phase els q0 env Hready0) as
    (q & env' & Hrun & _ & _ & Hsame & _ & Htl & Hcnt & Hld).
  { by left. }
  { done. }
  { done. }
  { intros el Hin. destruct (Hels el Hin) as [Hi Hw].
    split; [done|]. split; [apply lookup_empty|exact Hw]. }
  destruct (enqueues_stable els q0 env Hstable0) as (q2 & env2 & Hrun2 & Hst).
  rewrite Hrun in Hrun2. injection Hrun2 as <- <-.
  exists q, env'. split.
  { cbn [run step]. rewrite new_loadMoreTiles. exact Hrun. }
  rewrite Hlen in *. change (maxTotalLoading_ q0) with 2 in *.
  change (tilesLoading_ q0) with 0 in *. change (getCount q0) with 0%nat in *.
  split; [lia|]. split; [unfold getTilesLoading; lia|]. split; [lia|].
  intros completions Hall.
  destruct (completions_stable completions q env' Hst Hall)
    as (q' & env'' & Hrun' & Hst' & Hsame').
  exists q', env''. split; [done|].
  apply stable_settled; [done|].
  destruct Hsame as (_ & HM & _), Hsame' as (_ & HM' & _).
  rewrite HM', HM. done.
Qed.

Lemma elementsFrom_idle_wanted (first count : nat) (el : Element) :
  el ∈ elementsFrom first count ->
  Tile_getState Env_empty (el_tile el) = IDLE /\
  wantAll (el_tile el) (el_args el) <> PriorityQueue.DROP.
Proof. intros _. split; [reflexivity|discriminate]. Defined.

Lemma elementsFrom_tiles (first count : nat) :
  el_tile <$> elementsFrom first count = seq first count.
Proof.
  unfold elementsFrom. rewrite <- list_fmap_compose.
  apply list_fmap_id.
Defined.

Lemma elementsFrom_NoDup (first count : nat) :
  NoDup (el_tile <$> elementsFrom first count).
Proof. rewrite elementsFrom_tiles. apply NoDup_seq. Defined.

Lemma budget_respected_witness :
  length (elementsFrom 1 20) = 20%nat /\
  NoDup (el_tile <$> elementsFrom 1 20) /\
  listeners Env_empty = ∅ /\
  Forall (fun c => terminal c.2) completionOrder /\
  exists q env' q' env'',
    run (LoadMoreTiles 2 2 :: (Enqueue <$> elementsFrom 1 20))
      (new 1%nat wantAll, Env_empty) = Done (q, env') /\
    length (loadingTiles env' (el_tile <$> elementsFrom 1 20)) = 2%nat /\
    getTilesLoading q = 2 /\
    getCount q = 18%nat /\
    run ((fun c => TileChange c.1 c.2) <$> completionOrder) (q, env')
      = Done (q', env'') /\
    allSettled env'' /\
    getCount q' = 0%nat /\ getTilesLoading q' = 0.
Proof.
  assert (Hterm : Forall (fun c => terminal c.2) completionOrder).
  { apply (bool_decide_unpack _). vm_compute. exact I. }
  split; [reflexivity|]. split; [apply elementsFrom_NoDup|].
  split; [reflexivity|]. split; [exact Hterm|].
  destruct (budget_respected 1%nat wantAll (elementsFrom 1 20) Env_empty)
    as (q & env' & Hrun & Hld & Htl & Hc & Hcompl).
  - reflexivity.
  - apply elementsFrom_NoDup.
  - apply elementsFrom_idle_wanted.
  - reflexivity.
  - destruct (Hcompl completionOrder Hterm) as (q' & env'' & Hrun' & Hfin).
    exists q, env', q', env''.
    assert (Hset : allSettled env'').
    { pose proof Hrun as Hrun0. vm_compute in Hrun0.
      injection Hrun0 as <- <-.
      vm_compute in Hrun'. injection Hrun' as _ <-.
      apply (bool_decide_unpack _). vm_compute. exact I. }
    destruct (Hfin (proj1 (allSettled_getState env'') Hset)) as [Hc' Htl'].
    repeat split; assumption.
Defined.

(** C9.  A queue as the constructor leaves it: no tile loading, both budgets
    16.  Without any call of [loadMoreTiles], enqueueing fresh Idle tiles
    (all wanted) starts a load for each of the first 16 and queues the
    rest. *)
Theorem default_budget_is_16 (id : QueueId) (pf : TilePriorityFunction)
    (els : list Element) (env : Env) :
  NoDup (el_tile <$> els) ->
  (forall el, el ∈ els ->
     Tile_getState env (el_tile el) = IDLE /\
     pf (el_tile el) (el_args el) <> PriorityQueue.DROP) ->
  getTilesLoading (new id pf) = 0 /\
  maxTotalLoading_ (new id pf) = 16 /\
  maxNewLoads_ (new id pf) = 16 /\
  getCount (new id pf) = 0%nat /\
  exists q env',
    run (Enqueue <$> els) (new id pf, env) = Done (q, env') /\
    getTilesLoading q = Z.min (Z.of_nat (length els)) 16 /\
    Z.of_nat (length (loadingTiles env' (el_tile <$> els)))
      = Z.min (Z.of_nat (length els)) 16 /\
    Z.of_nat (getCount q)
      = Z.of_nat (length els) - Z.min (Z.of_nat (length els)) 16.
Proof.
  intros Hnd Hels. do 4 (split; [done|]).
  destruct (enqueue_phase els (new id pf) env (new_ready id pf)) as
    (q & env' & Hrun & _ & _ & _ & _ & Htl & Hcnt & Hld).
  { by left. }
  { done. }
  { done. }
  { intros el Hin. destruct (Hels el Hin) as [Hi Hw].
    split; [done|]. split; [apply lookup_empty|exact Hw]. }
  exists q, env'. split; [done|].
  change (maxTotalLoading_ (new id pf)) with 16 in *.
  change (tilesLoading_ (new id pf)) with 0 in *.
  change (getCount (new id pf)) with 0%nat in *.
  unfold getTilesLoading. lia.
Qed.

Lemma default_budget_is_16_witness :
  NoDup (el_tile <$> elementsFrom 1 17) /\
  exists q env',
    run (Enqueue <$> elementsFrom 1 17) (new 1%nat wantAll, Env_empty)
      = Done (q, env') /\
    getTilesLoading q = 16 /\
    Z.of_nat (length (loadingTiles env' (el_tile <$> elementsFrom 1 17))) = 16
    /\ Z.of_nat (getCount q) = 1.
Proof.
  split; [apply elementsFrom_NoDup|].
  destruct (default_budget_is_16 1%nat wantAll (elementsFrom 1 17) Env_empty)
    as (_ & _ & _ & _ & q & env' & Hrun & Htl & Hld & Hc).
  - apply elementsFrom_NoDup.
  - apply elementsFrom_idle_wanted.
  - exists q, env'. repeat split; assumption.
Defined.

(** ** Two queues fed the same tiles *)

Lemma enqueueBoth_phase (els : list Element) :
  forall (q1 q2 : TileQueue) (env : Env),
  ready q1 -> ready q2 -> full q1 -> full q2 ->
  0 < maxNewLoads_ q1 -> 0 < maxNewLoads_ q2 ->
  NoDup (el_tile <$> els) ->
  (forall el, el ∈ els ->
     Tile_getState env (el_tile el) = IDLE /\
     PriorityQueue.indexMap_ (base q1) !! el_tile el = None /\
     PriorityQueue.indexMap_ (base q2) !! el_tile el = None /\
     PriorityQueue.priorityFunction_ (base q1) el <> PriorityQueue.DROP /\
     PriorityQueue.priorityFunction_ (base q2) el <> PriorityQueue.DROP) ->
  exists q1' q2' env',
    enqueueBoth els (q1, q2, env) = Done (q1', q2', env') /\
    (tilesLoading_ q1', getCount q1', tilesLoading_ q2', getCount q2')
    = shareSteps (maxTotalLoading_ q1) (maxTotalLoading_ q2) (length els)
        (tilesLoading_ q1, getCount q1, tilesLoading_ q2, getCount q2).
Proof.
  induction els as [|el rest IH];
    intros q1 q2 env Hr1 Hr2 Hf1 Hf2 Hn1 Hn2 Hnd Hels.
  { exists q1, q2, env. done. }
  rewrite fmap_cons in Hnd. apply NoDup_cons in Hnd as [Hnotin Hnd].
  destruct (Hels el) as (Hidle & Hfresh1 & Hfresh2 & Hw1 & Hw2); [by left|].
  destruct (enqueue_step q1 el env Hr1 Hf1 Hn1 Hfresh1 Hw1)
    as (q1' & env1 & He1 & Hr1' & Hf1' & Hsame1 & Hfr1 & Hst1 & Hcases1).
  destruct (enqueue_step q2 el env1 Hr2 Hf2 Hn2 Hfresh2 Hw2)
    as (q2' & env2 & He2 & Hr2' & Hf2' & Hsame2 & Hfr2 & Hst2 & Hcases2).
  pose proof Hsame1 as (_ & HM1 & HN1 & Hpf1).
  pose proof Hsame2 as (_ & HM2 & HN2 & Hpf2).
  assert (Hne : forall el', el' ∈ rest -> el_tile el' <> el_tile el).
  { intros el' Hin Heq. apply Hnotin. rewrite <- Heq.
    by apply list_elem_of_fmap_2. }
  destruct (IH q1' q2' env2 Hr1' Hr2' Hf1' Hf2') as
    (q1'' & q2'' & env' & Hrun & Hres).
  { lia. }
  { lia. }
  { done. }
  { intros el' Hin.
    destruct (Hels el') as (Hi' & Hf1'' & Hf2'' & Hw1' & Hw2'); [by right|].
    pose proof (Hne el' Hin) as Hne'.
    split; [|split; [|split; [|split]]].
    - rewrite Hst2, Hst1; done.
    - by apply Hfr1.
    - by apply Hfr2.
    - by rewrite Hpf1.
    - by rewrite Hpf2. }
  exists q1'', q2'', env'. split.
  { cbn [enqueueBoth]. rewrite He1. cbn [mbind Outcome_bind].
    rewrite He2. exact Hrun. }
  rewrite Hres, HM1, HM2. cbn [length shareSteps]. f_equal.
  unfold shareStep.
  destruct Hcases1 as [(Hroom1 & _ & Htl1 & Hc1 & Hs1)
                      |[(_ & Hni & _)|(Hsat1 & Htl1 & Hc1 & ->)]];
    [|done|].
  - rewrite (proj2 (Z.ltb_lt _ _) Hroom1).
    destruct Hcases2 as [(_ & Hi2 & _)
                        |[(Hroom2 & _ & Htl2 & Hc2 & _)
                         |(Hsat2 & Htl2 & Hc2 & _)]].
    + congruence.
    + rewrite (proj2 (Z.ltb_lt _ _) Hroom2). congruence.
    + rewrite (proj2 (Z.ltb_ge _ _) Hsat2). congruence.
  - rewrite (proj2 (Z.ltb_ge _ _) Hsat1).
    destruct Hcases2 as [(Hroom2 & _ & Htl2 & Hc2 & _)
                        |[(_ & Hni2 & _)
                         |(Hsat2 & Htl2 & Hc2 & _)]].
    + rewrite (proj2 (Z.ltb_lt _ _) Hroom2). congruence.
    + done.
    + rewrite (proj2 (Z.ltb_ge _ _) Hsat2). congruence.
Qed.

(** C6.  Two fresh queues, the budget of each set to 2 and 2, and 20 Idle
    tiles each enqueued into the first queue and then into the second
    (distinct tiles, dropped by neither priority function).  Each queue
    keeps to its own budget of 2 loads; the first has 20 - 2 = 18 tiles
    queued, the second 20 - 2 * 2 = 16: the two tiles the first queue had
    set Loading were discarded by the second without being counted. *)
Theorem queues_sharing_tiles (id1 id2 : QueueId)
    (pf1 pf2 : TilePriorityFunction) (els : list Element) (env : Env) :
  length els = 20%nat ->
  NoDup (el_tile <$> els) ->
  (forall el, el ∈ els ->
     Tile_getState env (el_tile el) = IDLE /\
     pf1 (el_tile el) (el_args el) <> PriorityQueue.DROP /\
     pf2 (el_tile el) (el_args el) <> PriorityQueue.DROP) ->
  exists q1_0 q2_0 q1 q2 env',
    loadMoreTiles (new id1 pf1) 2 2 env = Done (q1_0, env) /\
    loadMoreTiles (new id2 pf2) 2 2 env = Done (q2_0, env) /\
    enqueueBoth els (q1_0, q2_0, env) = Done (q1, q2, env') /\
    getCount q1 = 18%nat /\ getCount q2 = 16%nat /\
    getTilesLoading q1 = 2 /\ getTilesLoading q2 = 2.
Proof.
  intros Hlen Hnd Hels.
  set (q1_0 := set_budget (new id1 pf1) 2 2).
  set (q2_0 := set_budget (new id2 pf2) 2 2).
  destruct (enqueueBoth_phase els q1_0 q2_0 env) as
    (q1 & q2 & env' & Hrun & Hres).
  { apply (new_ready id1 pf1). }
  { apply (new_ready id2 pf2). }
  { by left. }
  { by left. }
  { done. }
  { done. }
  { done. }
  { intros el Hin. destruct (Hels el Hin) as (Hi & Hw1 & Hw2).
    split; [done|]. split; [apply lookup_empty|].
    split; [apply lookup_empty|]. done. }
  exists q1_0, q2_0, q1, q2, env'.
  split; [apply new_loadMoreTiles|]. split; [apply new_loadMoreTiles|].
  split; [done|].
  rewrite Hlen in Hres. vm_compute in Hres.
  injection Hres as H1 H2 H3 H4. done.
Qed.

Lemma queues_sharing_tiles_witness :
  length (elementsFrom 1 20) = 20%nat /\
  NoDup (el_tile <$> elementsFrom 1 20) /\
  exists q1 q2 env',
    enqueueBoth (elementsFrom 1 20)
      (set_budget (new 1%nat wantAll) 2 2,
       set_budget (new 2%nat wantAll) 2 2, Env_empty) = Done (q1, q2, env') /\
    getCount q1 = 18%nat /\ getCount q2 = 16%nat /\
    getTilesLoading q1 = 2 /\ getTilesLoading q2 = 2.
Proof.
  split; [reflexivity|]. split; [apply elementsFrom_NoDup|].
  destruct (queues_sharing_tiles 1%nat 2%nat wantAll wantAll
              (elementsFrom 1 20) Env_empty)
    as (q1_0 & q2_0 & q1 & q2 & env' & H1 & H2 & Hrun & Hc1 & Hc2 & Ht1 & Ht2).
  - reflexivity.
  - apply elementsFrom_NoDup.
  - intros el Hin.
    destruct (elementsFrom_idle_wanted 1 20 el Hin) as [Hi Hw].
    split; [exact Hi|]. split; exact Hw.
  - rewrite new_loadMoreTiles in H1, H2.
    injection H1 as <-. injection H2 as <-.
    exists q1, q2, env'. repeat split; assumption.
Defined.

(** * Further properties of the queue *)

(** ** The effects of a pass, exactly *)

Lemma loadEffects_snoc (u : QueueId) (started : list TileRef) (t : TileRef) :
  loadEffects u (started ++ [t]) = loadEffects u started ++ [EListen u t; ELoad t].
Proof. unfold loadEffects. rewrite bind_app. simpl. done. Qed.

Lemma listenersOn_snoc (u : QueueId) (started : list TileRef) (t : TileRef) :
  listenersOn u (started ++ [t]) = {[ (t, u) ]} ∪ listenersOn u started.
Proof.
  unfold listenersOn. rewrite fmap_app, list_to_set_app_L. simpl.
  set_solver.
Qed.

Lemma elem_of_listenersOn (u : QueueId) (started : list TileRef)
    (t : TileRef) (u' : QueueId) :
  (t, u') ∈ listenersOn u started <-> u' = u /\ t ∈ started.
Proof.
  unfold listenersOn. rewrite elem_of_list_to_set, list_elem_of_fmap. split.
  - intros (t' & Heq & Hin). injection Heq as -> ->. done.
  - intros [-> Hin]. eauto.
Qed.

Lemma drains_startedSoFar maxTotalLoading maxNewLoads q env n s' :
  drains maxTotalLoading maxNewLoads (q, env, n) s' ->
  exists started, startedSoFar q env n started s'.
Proof.
  intros Hd.
  refine (drains_invariant
            (fun s => exists started, startedSoFar q env n started s)
            _ _ _ _ _ Hd _).
  - intros [[q1 env1] n1] s2 Hc Hb (started & Hu & Hlog & Hnd & Hn & Hl & Hst & Hfr & Hcnt).
    destruct (turn_cases _ _ _ _ _ _ Hc Hb)
      as (el & b & _ & Hb1 & _ & _ & [[[_ Hidle] ->]|[_ ->]]).
    + assert (Hnotin : el_tile el ∉ started).
      { intros Hin. destruct (Hst _ Hin) as [_ Hs]. congruence. }
      exists (started ++ [el_tile el]). unfold startLoad, startedSoFar.
      split; [done|]. split.
      { simpl. rewrite Hlog, loadEffects_snoc, Hu, <- !app_assoc. done. }
      split.
      { apply NoDup_app. split; [done|]. split; [|apply NoDup_singleton].
        intros t Hin Hin'. apply list_elem_of_singleton in Hin' as ->. done. }
      split; [rewrite length_app; simpl; lia|].
      split.
      { simpl. rewrite Hl, listenersOn_snoc, Hu. set_solver. }
      split; [|split].
      * intros t Hin. apply elem_of_app in Hin as [Hin|Hin].
        -- destruct (Hst _ Hin) as [H0 H1]. split; [done|].
           rewrite getState_startLoad_ne; [done|]. intros ->. done.
        -- apply list_elem_of_singleton in Hin as ->.
           split; [|by apply getState_startLoad_eq].
           rewrite <- (Hfr _ Hnotin). done.
      * intros t Hin. apply not_elem_of_app in Hin as [Hin1 Hin2].
        rewrite getState_startLoad_ne; [by apply Hfr|].
        intros ->. apply Hin2. by apply list_elem_of_singleton.
      * apply cond_true in Hc as (_ & _ & Hpos).
        rewrite length_app.
        unfold getCount, PriorityQueue.getCount in *. simpl in *. lia.
    + exists started. unfold discard, startedSoFar.
      apply cond_true in Hc as (_ & _ & Hpos).
      do 7 (split; [done|]).
      unfold getCount, PriorityQueue.getCount in *. simpl in *. lia.
  - exists []. unfold startedSoFar, loadEffects, listenersOn. simpl.
    rewrite app_nil_r. split; [done|]. split; [done|].
    split; [apply NoDup_nil_2|]. split; [lia|].
    split; [set_solver|]. split; [|split; [done|lia]].
    intros t Hin. by apply elem_of_nil in Hin.
Qed.

(** X1.  Whatever the queue and the store, a drain pass starts the load of
    each tile at most once, and only of tiles that were Idle: for every
    such tile it registers the listener and then starts the load, in that
    order, and it does nothing else to the store (no listener removed, no
    callback, no other tile state changed).  [tilesLoading_] grows by the
    number of loads started, which is at most the number of elements the
    pass took off the heap. *)
Theorem pass_starts_each_tile_once (q : TileQueue) (env : Env) :
  exists q' env' started,
    loadMoreTiles_ q env = Done (q', env') /\
    log env' = log env ++ loadEffects (uid q) started /\
    NoDup started /\
    listeners env' = listenersOn (uid q) started ∪ listeners env /\
    (forall t, t ∈ started ->
       Tile_getState env t = IDLE /\ Tile_getState env' t = LOADING) /\
    (forall t, t ∉ started -> Tile_getState env' t = Tile_getState env t) /\
    tilesLoading_ q' = tilesLoading_ q + Z.of_nat (length started) /\
    (getCount q' + length started <= getCount q)%nat.
Proof.
  destruct (loadMoreTiles__Done q env) as (q' & env' & n & Hl & Hd).
  destruct (drains_startedSoFar _ _ _ _ _ _ Hd)
    as (started & _ & Hlog & Hnd & Hn & Hls & Hst & Hfr & Hcnt).
  pose proof (drains_counted _ _ _ _ _ _ Hd)
    as (_ & _ & _ & _ & _ & _ & Htl & _).
  exists q', env', started. repeat split; try done.
  - by apply Hst.
  - by apply Hst.
  - lia.
Qed.

(** ** When a pass does nothing, and when it stops *)

Lemma pass_noop (q : TileQueue) (env : Env) :
  loadMoreTiles__cond (maxTotalLoading_ q) (maxNewLoads_ q) (q, env, 0) = false ->
  loadMoreTiles_ q env = Done (q, env).
Proof.
  intros Hc. unfold loadMoreTiles_, loadMoreTiles__pass.
  destruct (getCount q); cbn [loadMoreTiles__loop]; rewrite Hc; done.
Qed.

(** X2.  A drain pass that finds no room ([maxTotalLoading_ <=
    tilesLoading_]), a per-pass budget that is not positive, or an empty
    heap, changes neither the queue nor the store.  Any pass leaves the
    budgets, the identity and the priority function of the queue alone and
    runs until the total budget is reached, it has started [maxNewLoads_]
    loads, or the heap is empty. *)
Theorem pass_runs_until_blocked (q : TileQueue) (env : Env) :
  (maxTotalLoading_ q <= tilesLoading_ q \/ maxNewLoads_ q <= 0 \/
   getCount q = 0%nat ->
   loadMoreTiles_ q env = Done (q, env)) /\
  exists q' env',
    loadMoreTiles_ q env = Done (q', env') /\
    sameSetup q q' /\
    (maxTotalLoading_ q <= tilesLoading_ q' \/
     maxNewLoads_ q <= tilesLoading_ q' - tilesLoading_ q \/
     getCount q' = 0%nat).
Proof.
  split.
  - intros H. apply pass_noop, cond_false. done.
  - destruct (loadMoreTiles__Done q env) as (q' & env' & n & Hl & Hd).
    exists q', env'. split; [done|].
    pose proof (drains_counted _ _ _ _ _ _ Hd)
      as (Hu & HM & HN & Hpf & _ & _ & Htl & _).
    split; [done|].
    pose proof (drains_final _ _ _ _ Hd) as Hf. apply cond_false in Hf. lia.
Qed.

Lemma pass_runs_until_blocked_witness :
  maxNewLoads_ pausedQueue <= 0 /\
  getCount pausedQueue = 3%nat /\
  loadMoreTiles_ pausedQueue Env_empty = Done (pausedQueue, Env_empty).
Proof.
  split; [vm_compute; discriminate|]. split; [reflexivity|].
  apply (proj1 (pass_runs_until_blocked pausedQueue Env_empty)).
  right. left. vm_compute. discriminate.
Defined.

(** ** A queue whose per-pass budget is zero *)

Lemma enqueue_getCount_le (b : PriorityQueue.t) (el : Element) :
  (PriorityQueue.getCount b <= PriorityQueue.getCount (PriorityQueue.enqueue b el))%nat.
Proof.
  destruct (PriorityQueue.indexMap_ b !! PriorityQueue.keyFunction_ b el)
    eqn:Hl.
  - rewrite PriorityQueueFacts.enqueue_queued by eauto. done.
  - rewrite PriorityQueueFacts.enqueue_fresh_getCount by done. lia.
Qed.

Lemma loadCalls_completion (env : Env) (t : TileRef) (u : QueueId) :
  loadCalls (call_tileChangeCallback (goog_events_unlisten env t u) u)
  = loadCalls env.
Proof.
  unfold loadCalls. simpl. rewrite !List.filter_app, !length_app. simpl. lia.
Qed.

Lemma paused_step (q : TileQueue) (env : Env) (ev : Event) :
  maxNewLoads_ q <= 0 ->
  match ev with LoadMoreTiles _ _ => False | _ => True end ->
  exists q' env',
    step (q, env) ev = Done (q', env') /\
    loadCalls env' = loadCalls env /\
    (getCount q <= getCount q')%nat /\
    listeners env' ⊆ listeners env /\
    maxNewLoads_ q' = maxNewLoads_ q /\
    tilesLoading_ q' <= tilesLoading_ q.
Proof.
  intros HN Hev. destruct ev as [el| |t s]; [|done|]; cbn [step].
  - unfold enqueue. rewrite pass_noop by (apply cond_false; simpl; lia).
    eexists _, _. split; [done|]. split; [done|].
    split; [apply enqueue_getCount_le|]. split; [done|]. split; [done|].
    simpl. lia.
  - unfold Tile_dispatchChange. case_decide.
    + unfold handleTileChange. case_decide.
      * rewrite pass_noop by (apply cond_false; simpl; lia).
        eexists _, _. split; [done|].
        split; [by rewrite loadCalls_completion|]. split; [done|].
        split; [simpl; set_solver|]. split; [done|]. simpl. lia.
      * rewrite pass_noop by (apply cond_false; simpl; lia).
        eexists _, _. split; [done|]. repeat split; try done; lia.
    + eexists _, _. split; [done|]. repeat split; try done; lia.
Qed.

(** X3.  While [maxNewLoads_] is zero (or less) and the budget is not set
    again, the queue is paused: whatever is enqueued and whichever tiles
    change, no load is started, no listener is added, nothing leaves the
    heap, and [tilesLoading_] can only go down. *)
Theorem paused_queue_starts_nothing (evs : list Event) (q : TileQueue)
    (env : Env) :
  maxNewLoads_ q <= 0 ->
  budgetUntouched evs ->
  exists q' env',
    run evs (q, env) = Done (q', env') /\
    loadCalls env' = loadCalls env /\
    (getCount q <= getCount q')%nat /\
    listeners env' ⊆ listeners env /\
    maxNewLoads_ q' = maxNewLoads_ q /\
    tilesLoading_ q' <= tilesLoading_ q.
Proof.
  revert q env. induction evs as [|ev evs IH]; intros q env HN Hevs.
  { exists q, env. repeat split; try done; lia. }
  apply Forall_cons in Hevs as [Hev Hevs].
  destruct (paused_step q env ev HN Hev)
    as (q1 & env1 & Hs & Hlc1 & Hc1 & Hl1 & HN1 & Htl1).
  destruct (IH q1 env1) as (q' & env' & Hr & Hlc & Hc & Hl & HN' & Htl);
    [lia|done|].
  exists q', env'. split.
  { cbn [run]. rewrite Hs. exact Hr. }
  split; [congruence|]. split; [lia|]. split; [set_solver|].
  split; [congruence|]. lia.
Qed.

Lemma paused_queue_starts_nothing_witness :
  maxNewLoads_ pausedQueue <= 0 /\
  budgetUntouched quietDay /\
  exists q' env',
    run quietDay (pausedQueue, Env_empty) = Done (q', env') /\
    loadCalls env' = 0%nat /\
    (3 <= getCount q')%nat.
Proof.
  assert (Hq : budgetUntouched quietDay).
  { unfold budgetUntouched, quietDay. repeat constructor. }
  split; [vm_compute; discriminate|]. split; [exact Hq|].
  destruct (paused_queue_starts_nothing quietDay pausedQueue Env_empty)
    as (q' & env' & Hr & Hlc & Hc & _).
  - vm_compute. discriminate.
  - exact Hq.
  - exists q', env'. split; [exact Hr|]. split; [exact Hlc|exact Hc].
Defined.

(** ** [tilesLoading_] and the listeners, along any sequence of events *)

Lemma pass_accounted (q : TileQueue) (env : Env) :
  accounted q env ->
  exists q' env',
    loadMoreTiles_ q env = Done (q', env') /\
    accounted q' env' /\ sameSetup q q' /\
    (maxTotalLoading_ q <= maxNewLoads_ q -> full q').
Proof.
  intros Ha.
  destruct (loadMoreTiles__Done q env) as (q' & env' & n & Hl & Hd).
  exists q', env'. split; [done|].
  pose proof (drains_counted _ _ _ _ _ _ Hd) as (Hu & HM & HN & Hpf & _).
  split; [by eapply drains_accounted|]. split; [done|].
  intros Hle. eapply drains_full; [exact Hd| |done].
  destruct Ha as [-> _]. lia.
Qed.

Lemma accounted_other_tile (q : TileQueue) (env : Env) (t : TileRef)
    (s : TileState) :
  accounted q env -> (t, uid q) ∉ listeners env ->
  accounted q (Tile_setState env t s).
Proof.
  intros [Hsz Hl] Hnin. split; [done|]. simpl.
  intros t' u Hin. destruct (Hl _ _ Hin) as [-> Hst]. split; [done|].
  rewrite getState_setState_ne; [done|]. intros ->. done.
Qed.

Lemma accounted_completed (q : TileQueue) (env : Env) (t : TileRef)
    (s : TileState) :
  accounted q env -> (t, uid q) ∈ listeners env ->
  accounted (set_tilesLoading q (tilesLoading_ q - 1))
    (call_tileChangeCallback
       (goog_events_unlisten (Tile_setState env t s) t (uid q)) (uid q)).
Proof.
  intros [Hsz Hl] Hin. split; simpl.
  - rewrite size_difference by set_solver. rewrite size_singleton.
    assert (size (listeners env) <> 0%nat).
    { intros H0. apply size_empty_inv in H0. set_solver. }
    lia.
  - intros t' u Hin'. apply elem_of_difference in Hin' as [Hin' Hne].
    destruct (Hl _ _ Hin') as [-> Hst]. split; [done|].
    change (Tile_getState (Tile_setState env t s) t' = LOADING).
    rewrite getState_setState_ne; [done|]. intros ->. set_solver.
Qed.

Lemma accounted_still_loading (q : TileQueue) (env : Env) (t : TileRef) :
  accounted q env -> accounted q (Tile_setState env t LOADING).
Proof.
  intros [Hsz Hl]. split; [done|]. simpl.
  intros t' u Hin. destruct (Hl _ _ Hin) as [-> Hst]. split; [done|].
  destruct (decide (t' = t)) as [->|Hne].
  - apply getState_setState_eq.
  - by rewrite getState_setState_ne.
Qed.

(** One event on a queue whose count is right: the count is right
    afterwards, the budget is what it was or what the event set, and the
    queue is [full] if it was, or if a pass ran, whenever the budget per
    pass is no smaller than the budget in total. *)
Lemma step_accounted (q : TileQueue) (env : Env) (ev : Event) :
  accounted q env ->
  match ev with TileChange _ s => s <> IDLE | _ => True end ->
  exists q' env',
    step (q, env) ev = Done (q', env') /\
    accounted q' env' /\
    (maxTotalLoading_ q', maxNewLoads_ q') =
      match ev with
      | LoadMoreTiles maxTotalLoading maxNewLoads =>
          (maxTotalLoading, maxNewLoads)
      | _ => (maxTotalLoading_ q, maxNewLoads_ q)
      end /\
    (maxTotalLoading_ q' <= maxNewLoads_ q' -> full q -> full q').
Proof.
  intros Ha Hev. destruct ev as [el|M N|t s]; cbn [step].
  - unfold enqueue.
    destruct (pass_accounted
                (set_base q (PriorityQueue.enqueue (base q) el)) env Ha)
      as (q' & env' & Hl & Ha' & (_ & HM & HN & _) & Hfull).
    exists q', env'. split; [done|]. split; [done|].
    split; [by rewrite HM, HN|]. rewrite HM, HN. auto.
  - unfold loadMoreTiles.
    destruct (pass_accounted (set_budget q M N) env Ha)
      as (q' & env' & Hl & Ha' & (_ & HM & HN & _) & Hfull).
    exists q', env'. split; [done|]. split; [done|].
    split; [by rewrite HM, HN|]. rewrite HM, HN. auto.
  - unfold Tile_dispatchChange.
    destruct (decide ((t, uid q) ∈ listeners (Tile_setState env t s)))
      as [Hin|Hnin].
    + unfold handleTileChange. rewrite getState_setState_eq.
      destruct (decide (s = LOADED \/ s = ERROR \/ s = EMPTY)) as [Ht|Ht].
      * destruct (pass_accounted _ _ (accounted_completed q env t s Ha Hin))
          as (q' & env' & Hl & Ha' & (_ & HM & HN & _) & Hfull).
        exists q', env'. split; [done|]. split; [done|].
        split; [by rewrite HM, HN|]. rewrite HM, HN. auto.
      * assert (s = LOADING) as -> by (destruct s; tauto).
        destruct (pass_accounted _ _ (accounted_still_loading q env t Ha))
          as (q' & env' & Hl & Ha' & (_ & HM & HN & _) & Hfull).
        exists q', env'. split; [done|]. split; [done|].
        split; [by rewrite HM, HN|]. rewrite HM, HN. auto.
    + exists q, (Tile_setState env t s). split; [done|].
      split; [by apply accounted_other_tile|]. done.
Qed.

(** X4.  In a store where the listeners are those of this queue, as many as
    [tilesLoading_] says, each on a tile that is Loading: enqueues, budget
    changes and tile changes (to Loading or to a terminal state) keep it
    so.  After any such sequence of events [tilesLoading_] is the number of
    tiles the queue listens to, each of them Loading; it is never
    negative. *)
Theorem tilesLoading_counts_listeners (evs : list Event) (q : TileQueue)
    (env : Env) :
  accounted q env ->
  noTileReset evs ->
  exists q' env',
    run evs (q, env) = Done (q', env') /\
    tilesLoading_ q' = Z.of_nat (size (listeners env')) /\
    (forall t u, (t, u) ∈ listeners env' ->
       u = uid q' /\ Tile_getState env' t = LOADING) /\
    0 <= tilesLoading_ q'.
Proof.
  revert q env. induction evs as [|ev evs IH]; intros q env Ha Hevs.
  { exists q, env. destruct Ha as [Hsz Hl].
    split; [done|]. split; [done|]. split; [exact Hl|lia]. }
  apply Forall_cons in Hevs as [Hev Hevs].
  destruct (step_accounted q env ev Ha Hev) as (q1 & env1 & Hs & Ha1 & _).
  destruct (IH q1 env1 Ha1 Hevs) as (q' & env' & Hr & Hres).
  exists q', env'. split; [|done]. cbn [run]. rewrite Hs. exact Hr.
Qed.

Lemma tilesLoading_counts_listeners_witness :
  accounted (new 1%nat wantAll) Env_empty /\
  noTileReset busyDay /\
  exists q' env',
    run busyDay (new 1%nat wantAll, Env_empty) = Done (q', env') /\
    tilesLoading_ q' = Z.of_nat (size (listeners env')) /\
    0 <= tilesLoading_ q'.
Proof.
  assert (Ha : accounted (new 1%nat wantAll) Env_empty).
  { apply new_accounted. reflexivity. }
  assert (Hb : noTileReset busyDay).
  { unfold noTileReset, busyDay.
    repeat (apply Forall_cons; split; [first [exact I|discriminate]|]).
    apply Forall_nil_2. }
  split; [exact Ha|]. split; [exact Hb|].
  destruct (tilesLoading_counts_listeners busyDay _ _ Ha Hb)
    as (q' & env' & Hr & Hsz & _ & H0).
  exists q', env'. split; [exact Hr|]. split; [exact Hsz|exact H0].
Defined.

(** ** The pipeline is kept full *)

(** X6.  With as many new loads allowed per pass as loads in total, a queue
    that has nothing waiting while it has room stays so: after every
    enqueue, budget change (of that kind) and tile change (to Loading or to
    a terminal state), either the heap is empty or [tilesLoading_] has
    reached [maxTotalLoading_]. *)
Theorem pipeline_stays_full (evs : list Event) (q : TileQueue) (env : Env) :
  accounted q env ->
  getCount q = 0%nat \/ maxTotalLoading_ q <= tilesLoading_ q ->
  maxTotalLoading_ q <= maxNewLoads_ q ->
  unthrottled evs ->
  exists q' env',
    run evs (q, env) = Done (q', env') /\
    accounted q' env' /\
    (getCount q' = 0%nat \/ maxTotalLoading_ q' <= tilesLoading_ q') /\
    maxTotalLoading_ q' <= maxNewLoads_ q'.
Proof.
  revert q env. induction evs as [|ev evs IH]; intros q env Ha Hfull Hle Hevs.
  { exists q, env. done. }
  apply Forall_cons in Hevs as [Hev Hevs].
  destruct (step_accounted q env ev Ha) as (q1 & env1 & Hs & Ha1 & Hb & Hf).
  { destruct ev; done. }
  assert (Hle1 : maxTotalLoading_ q1 <= maxNewLoads_ q1).
  { destruct ev; injection Hb as -> ->; done. }
  destruct (IH q1 env1 Ha1 (Hf Hle1 Hfull) Hle1 Hevs)
    as (q' & env' & Hr & Hres).
  exists q', env'. split; [|done]. cbn [run]. rewrite Hs. exact Hr.
Qed.

Lemma pipeline_stays_full_witness :
  accounted (new 1%nat wantAll) Env_empty /\
  unthrottled busyDay /\
  exists q' env',
    run busyDay (new 1%nat wantAll, Env_empty) = Done (q', env') /\
    (getCount q' = 0%nat \/ maxTotalLoading_ q' <= tilesLoading_ q').
Proof.
  assert (Ha : accounted (new 1%nat wantAll) Env_empty).
  { apply new_accounted. reflexivity. }
  assert (Hb : unthrottled busyDay).
  { unfold unthrottled, busyDay.
    repeat (apply Forall_cons; split;
            [first [exact I|discriminate|vm_compute; discriminate]|]).
    apply Forall_nil_2. }
  split; [exact Ha|]. split; [exact Hb|].
  destruct (pipeline_stays_full busyDay (new 1%nat wantAll) Env_empty)
    as (q' & env' & Hr & _ & Hf & _).
  - exact Ha.
  - left. reflexivity.
  - vm_compute. discriminate.
  - exact Hb.
  - exists q', env'. split; [exact Hr|exact Hf].
Defined.

(** ** The largest budget bounds the loads in flight *)

Lemma pass_within (bound : Z) (q : TileQueue) (env : Env) :
  tilesLoading_ q <= bound -> maxTotalLoading_ q <= bound ->
  exists q' env',
    loadMoreTiles_ q env = Done (q', env') /\
    tilesLoading_ q' <= bound /\
    maxTotalLoading_ q' = maxTotalLoading_ q.
Proof.
  intros Htl HM.
  destruct (loadMoreTiles__Done q env) as (q' & env' & n & Hl & Hd).
  exists q', env'. split; [done|].
  pose proof (drains_counted _ _ _ _ _ _ Hd) as (_ & HM' & _).
  split; [|done].
  refine (drains_invariant (fun s => tilesLoading_ s.1.1 <= bound)
            _ _ _ _ _ Hd Htl).
  intros [[q1 env1] n1] s2 Hc Hb H1. simpl in H1.
  destruct (turn_cases _ _ _ _ _ _ Hc Hb)
    as (el & b & _ & _ & _ & _ & [[_ ->]|[_ ->]]);
    apply cond_true in Hc; unfold startLoad, discard; simpl; lia.
Qed.

(** X5.  The number of loads in flight never exceeds the largest total
    budget the queue ever had: if [tilesLoading_] and [maxTotalLoading_]
    are at most [bound] and every call of [loadMoreTiles] sets a total
    budget of at most [bound], then [tilesLoading_] is at most [bound]
    after any sequence of enqueues, budget changes and tile changes. *)
Theorem in_flight_within_largest_budget (bound : Z) (evs : list Event)
    (q : TileQueue) (env : Env) :
  tilesLoading_ q <= bound ->
  maxTotalLoading_ q <= bound ->
  budgetsWithin bound evs ->
  exists q' env',
    run evs (q, env) = Done (q', env') /\
    tilesLoading_ q' <= bound /\
    maxTotalLoading_ q' <= bound.
Proof.
  revert q env. induction evs as [|ev evs IH]; intros q env Htl HM Hevs.
  { exists q, env. done. }
  apply Forall_cons in Hevs as [Hev Hevs].
  assert (Hstep : exists q1 env1,
             step (q, env) ev = Done (q1, env1) /\
             tilesLoading_ q1 <= bound /\ maxTotalLoading_ q1 <= bound).
  { destruct ev as [el|M N|t s]; cbn [step].
    - unfold enqueue.
      destruct (pass_within bound
                  (set_base q (PriorityQueue.enqueue (base q) el)) env)
        as (q1 & env1 & Hl & Htl1 & HM1); [done..|].
      exists q1, env1. rewrite HM1. done.
    - unfold loadMoreTiles.
      destruct (pass_within bound (set_budget q M N) env)
        as (q1 & env1 & Hl & Htl1 & HM1); [done..|].
      exists q1, env1. rewrite HM1. done.
    - unfold Tile_dispatchChange. case_decide; [|by eexists _, _].
      unfold handleTileChange. case_decide.
      + match goal with
        | |- context [loadMoreTiles_ ?q0 ?env0] =>
            destruct (pass_within bound q0 env0)
              as (q1 & env1 & Hl & Htl1 & HM1); [simpl; lia|done|]
        end.
        exists q1, env1. rewrite HM1. done.
      + match goal with
        | |- context [loadMoreTiles_ ?q0 ?env0] =>
            destruct (pass_within bound q0 env0)
              as (q1 & env1 & Hl & Htl1 & HM1); [done..|]
        end.
        exists q1, env1. rewrite HM1. done. }
  destruct Hstep as (q1 & env1 & Hs & Htl1 & HM1).
  destruct (IH q1 env1 Htl1 HM1 Hevs) as (q' & env' & Hr & Hres).
  exists q', env'. split; [|done]. cbn [run]. rewrite Hs. exact Hr.
Qed.

Lemma in_flight_within_largest_budget_witness :
  tilesLoading_ (new 1%nat wantAll) <= 16 /\
  maxTotalLoading_ (new 1%nat wantAll) <= 16 /\
  budgetsWithin 16 busyDay /\
  exists q' env',
    run busyDay (new 1%nat wantAll, Env_empty) = Done (q', env') /\
    tilesLoading_ q' <= 16.
Proof.
  assert (Hb : budgetsWithin 16 busyDay).
  { unfold budgetsWithin, busyDay.
    repeat (apply Forall_cons; split;
            [first [exact I|vm_compute; discriminate]|]).
    apply Forall_nil_2. }
  split; [vm_compute; discriminate|]. split; [vm_compute; discriminate|].
  split; [exact Hb|].
  destruct (in_flight_within_largest_budget 16 busyDay
              (new 1%nat wantAll) Env_empty)
    as (q' & env' & Hr & Htl & _).
  - vm_compute. discriminate.
  - vm_compute. discriminate.
  - exact Hb.
  - exists q', env'. split; [exact Hr|exact Htl].
Defined.

(** * ol/format/Feature: wrapping a longitude *)

Section Remainder.

Local Open Scope Q_scope.

Lemma Qtruncate_nonneg (x : Q) :
  0 <= x -> inject_Z (Qtruncate x) <= x /\ x < inject_Z (Qtruncate x) + 1.
Proof.
  intros Hx. unfold Qtruncate.
  rewrite (proj2 (Qle_bool_iff 0 x) Hx).
  split; [apply Qfloor_le|].
  pose proof (Qlt_floor x) as H. rewrite inject_Z_plus in H. exact H.
Qed.

Lemma Qtruncate_neg (x : Q) :
  x < 0 -> x <= inject_Z (Qtruncate x) /\ inject_Z (Qtruncate x) - 1 < x.
Proof.
  intros Hx. unfold Qtruncate.
  destruct (Qle_bool 0 x) eqn:Hb.
  { apply Qle_bool_iff in Hb. lra. }
  split; [apply Qle_ceiling|].
  pose proof (Qceiling_lt x) as H.
  change (Qceiling x - 1)%Z with (Qceiling x + (-1))%Z in H.
  rewrite inject_Z_plus in H. change (inject_Z (-1)) with (- (1))%Q in H. lra.
Qed.

Lemma Qdiv_mult (a b : Q) : 0 < b -> a == b * (a / b).
Proof. intros Hb. field. lra. Qed.

(** The remainder has the sign of the dividend and is smaller than the
    modulus. *)
Lemma jsRem_nonneg (a b : Q) :
  0 < b -> 0 <= a -> 0 <= jsRem a b /\ jsRem a b < b.
Proof.
  intros Hb Ha. unfold jsRem.
  assert (Hx : 0 <= a / b) by (apply Qle_shift_div_l; lra).
  destruct (Qtruncate_nonneg _ Hx) as [H1 H2].
  pose proof (Qdiv_mult a b Hb) as Heq.
  set (x := a / b) in *. set (f := inject_Z (Qtruncate x)) in *.
  split; nra.
Qed.

Lemma jsRem_neg (a b : Q) :
  0 < b -> a < 0 -> - b < jsRem a b /\ jsRem a b <= 0.
Proof.
  intros Hb Ha. unfold jsRem.
  assert (Hx : a / b < 0) by (apply Qlt_shift_div_r; lra).
  destruct (Qtruncate_neg _ Hx) as [H1 H2].
  pose proof (Qdiv_mult a b Hb) as Heq.
  set (x := a / b) in *. set (f := inject_Z (Qtruncate x)) in *.
  split; nra.
Qed.

Lemma jsRem_bounds (a b : Q) : 0 < b -> - b < jsRem a b /\ jsRem a b < b.
Proof.
  intros Hb. destruct (Qlt_le_dec a 0) as [Ha|Ha].
  - destruct (jsRem_neg a b Hb Ha). lra.
  - destruct (jsRem_nonneg a b Hb Ha). lra.
Qed.

Lemma Qtruncate_small (x : Q) : -1 < x -> x < 1 -> Qtruncate x = 0%Z.
Proof.
  intros H1 H2.
  assert (Hb : -1 < inject_Z (Qtruncate x) /\ inject_Z (Qtruncate x) < 1).
  { destruct (Qlt_le_dec x 0) as [Hn|Hp].
    - destruct (Qtruncate_neg x Hn). lra.
    - destruct (Qtruncate_nonneg x Hp). lra. }
  destruct Hb as [Hl Hu].
  change (-1) with (inject_Z (-1)) in Hl. change 1 with (inject_Z 1) in Hu.
  rewrite <- Zlt_Qlt in Hl, Hu. lia.
Qed.

Lemma jsRem_small (a b : Q) : 0 < b -> - b < a -> a < b -> jsRem a b == a.
Proof.
  intros Hb H1 H2. unfold jsRem. rewrite Qtruncate_small.
  - change (inject_Z 0) with 0. lra.
  - apply Qlt_shift_div_l; lra.
  - apply Qlt_shift_div_r; lra.
Qed.

Lemma jsRem_congruent (a b : Q) :
  exists k : Z, jsRem a b == a + b * inject_Z k.
Proof.
  exists (- Qtruncate (a / b))%Z. unfold jsRem.
  rewrite inject_Z_opp. lra.
Qed.

End Remainder.

Section Wrapped.

Local Open Scope Q_scope.

(** X7.  [wrapped] as it stands after tilequeue.js: the latitude is kept,
    anything after it is dropped, and the longitude moves by a whole number
    of turns of 360 to a value strictly between -180 and 181.  It ends up
    above 180 exactly when the remainder of the longitude by 360 lies
    strictly between -180 and -179 (the second comparison is with -179,
    not -180); in every other case it is at most 180. *)
Theorem wrapped_range (coordinate : Coordinate) :
  let longitude := jsRem (ord0 coordinate) 360 in
  let result := FeatureFormat.wrapped coordinate in
  ord1 result = ord1 coordinate /\
  ordRest result = [] /\
  (exists k : Z, ord0 result == ord0 coordinate + 360 * inject_Z k) /\
  -180 < ord0 result /\ ord0 result < 181 /\
  (180 < ord0 result <-> -180 < longitude /\ longitude < -179).
Proof.
  intros longitude result.
  assert (Hb : -360 < longitude /\ longitude < 360).
  { apply (jsRem_bounds (ord0 coordinate) 360). lra. }
  destruct (jsRem_congruent (ord0 coordinate) 360) as [k Hk].
  fold longitude in Hk.
  subst result. unfold FeatureFormat.wrapped. fold longitude.
  destruct (Qlt_le_dec 180 longitude) as [H1|H1];
    [|destruct (Qlt_le_dec longitude (-179)) as [H2|H2]]; simpl.
  - split; [done|]. split; [done|]. split.
    { exists (k - 1)%Z.
      change (k - 1)%Z with (k + (-1))%Z. rewrite inject_Z_plus.
      change (inject_Z (-1)) with (- (1)). lra. }
    repeat split; lra.
  - split; [done|]. split; [done|]. split.
    { exists (k + 1)%Z. rewrite inject_Z_plus.
      change (inject_Z 1) with 1. lra. }
    repeat split; lra.
  - split; [done|]. split; [done|]. split; [by exists k|].
    repeat split; lra.
Qed.

(** X8.  [wrapped] as it stands after tilequeue.js leaves a longitude from
    -179 to 180 where it is. *)
Theorem wrapped_keeps_in_range (coordinate : Coordinate) :
  -179 <= ord0 coordinate -> ord0 coordinate <= 180 ->
  ord0 (FeatureFormat.wrapped coordinate) == ord0 coordinate /\
  ord1 (FeatureFormat.wrapped coordinate) = ord1 coordinate.
Proof.
  intros Hl Hu.
  assert (Hs : jsRem (ord0 coordinate) 360 == ord0 coordinate)
    by (apply jsRem_small; lra).
  unfold FeatureFormat.wrapped.
  destruct (Qlt_le_dec 180 (jsRem (ord0 coordinate) 360)) as [H1|H1];
    [|destruct (Qlt_le_dec (jsRem (ord0 coordinate) 360) (-179)) as [H2|H2]];
    simpl; (split; [|done]); lra.
Qed.

Lemma wrapped_keeps_in_range_witness :
  -179 <= ord0 (mkCoordinate (-179) 45 [7]) /\
  ord0 (mkCoordinate (-179) 45 [7]) <= 180 /\
  ord0 (FeatureFormat.wrapped (mkCoordinate (-179) 45 [7])) == -179.
Proof.
  split; [vm_compute; discriminate|]. split; [vm_compute; discriminate|].
  apply (wrapped_keeps_in_range (mkCoordinate (-179) 45 [7]));
    vm_compute; discriminate.
Defined.

(** X9.  [wrapped] with the half width of the world as a parameter, for a
    positive [hemisphere]: the latitude is kept, anything after it is
    dropped, and the longitude moves by a whole number of turns of
    [2 * hemisphere] to a value from [- hemisphere] to [hemisphere]. *)
Theorem wrapped_world_range (coordinate : Coordinate) (hemisphere : Q) :
  0 < hemisphere ->
  let result := FeatureFormatWorld.wrapped coordinate hemisphere in
  ord1 result = ord1 coordinate /\
  ordRest result = [] /\
  (exists k : Z,
      ord0 result == ord0 coordinate + (hemisphere * 2) * inject_Z k) /\
  - hemisphere <= ord0 result /\ ord0 result <= hemisphere.
Proof.
  intros Hh result.
  assert (Hb : - (hemisphere * 2) < jsRem (ord0 coordinate) (hemisphere * 2)
               /\ jsRem (ord0 coordinate) (hemisphere * 2) < hemisphere * 2).
  { apply jsRem_bounds. lra. }
  destruct (jsRem_congruent (ord0 coordinate) (hemisphere * 2)) as [k Hk].
  subst result. unfold FeatureFormatWorld.wrapped.
  set (longitude := jsRem (ord0 coordinate) (hemisphere * 2)) in *.
  destruct (Qlt_le_dec hemisphere longitude) as [H1|H1];
    [|destruct (Qlt_le_dec longitude (- hemisphere)) as [H2|H2]]; simpl.
  - split; [done|]. split; [done|]. split.
    { exists (k - 1)%Z.
      change (k - 1)%Z with (k + (-1))%Z. rewrite inject_Z_plus.
      change (inject_Z (-1)) with (- (1)). lra. }
    split; lra.
  - split; [done|]. split; [done|]. split.
    { exists (k + 1)%Z. rewrite inject_Z_plus.
      change (inject_Z 1) with 1. lra. }
    split; lra.
  - split; [done|]. split; [done|]. split; [by exists k|].
    split; lra.
Qed.

Lemma wrapped_world_range_witness :
  0 < 180 /\
  - (180) <= ord0 (FeatureFormatWorld.wrapped (mkCoordinate (-359 # 2) 0 []) 180)
  /\ ord0 (FeatureFormatWorld.wrapped (mkCoordinate (-359 # 2) 0 []) 180) <= 180.
Proof.
  split; [vm_compute; reflexivity|].
  destruct (wrapped_world_range (mkCoordinate (-359 # 2) 0 []) 180)
    as (_ & _ & _ & Hl & Hu).
  - vm_compute. reflexivity.
  - split; [exact Hl|exact Hu].
Defined.

Lemma wrapped_world_fixed (coordinate : Coordinate) (hemisphere : Q) :
  0 < hemisphere ->
  - hemisphere <= ord0 coordinate -> ord0 coordinate <= hemisphere ->
  ord0 (FeatureFormatWorld.wrapped coordinate hemisphere) == ord0 coordinate.
Proof.
  intros Hh Hl Hu.
  assert (Hs : jsRem (ord0 coordinate) (hemisphere * 2) == ord0 coordinate)
    by (apply jsRem_small; lra).
  unfold FeatureFormatWorld.wrapped.
  set (longitude := jsRem (ord0 coordinate) (hemisphere * 2)) in *.
  destruct (Qlt_le_dec hemisphere longitude) as [H1|H1];
    [|destruct (Qlt_le_dec longitude (- hemisphere)) as [H2|H2]];
    simpl; lra.
Qed.

(** X10.  [wrapped] with the half width of the world as a parameter, for a
    positive [hemisphere]: a longitude from [- hemisphere] to [hemisphere]
    stays where it is, and wrapping what was wrapped changes nothing. *)
Theorem wrapped_world_idempotent (coordinate : Coordinate) (hemisphere : Q) :
  0 < hemisphere ->
  let once := FeatureFormatWorld.wrapped coordinate hemisphere in
  let twice := FeatureFormatWorld.wrapped once hemisphere in
  (- hemisphere <= ord0 coordinate -> ord0 coordinate <= hemisphere ->
   ord0 once == ord0 coordinate) /\
  ord0 twice == ord0 once /\ ord1 twice = ord1 once /\
  ordRest twice = ordRest once.
Proof.
  intros Hh once twice. split.
  { intros Hl Hu. by apply wrapped_world_fixed. }
  destruct (wrapped_world_range coordinate hemisphere Hh)
    as (_ & Hr & _ & Hl & Hu). fold once in Hr, Hl, Hu.
  split; [by apply wrapped_world_fixed|].
  destruct (wrapped_world_range once hemisphere Hh) as (H1 & Hr2 & _).
  fold twice in H1, Hr2. split; [done|]. by rewrite Hr, Hr2.
Qed.

Lemma wrapped_world_idempotent_witness :
  0 < 180 /\
  ord0 (FeatureFormatWorld.wrapped
          (FeatureFormatWorld.wrapped (mkCoordinate 541 10 [3]) 180) 180)
  == ord0 (FeatureFormatWorld.wrapped (mkCoordinate 541 10 [3]) 180).
Proof.
  split; [vm_compute; reflexivity|].
  destruct (wrapped_world_idempotent (mkCoordinate 541 10 [3]) 180)
    as (_ & H & _).
  - vm_compute. reflexivity.
  - exact H.
Defined.

End Wrapped.

(** * ol/format/Feature: the options of a read *)

(** X11.  Without options, [getReadOptions] returns the two defaults of the
    format.  With options, it returns an object with exactly the two
    properties [dataProjection] and [featureProjection], both taken from the
    options: the data projection is the one given or, when none is given,
    what [readProjection(source)] returns, and the feature projection is the
    one given even when it is undefined.  Neither default of the format is
    used then, and every other option is left behind. *)
Theorem getReadOptions_defaults_only_without_options {Source : Type}
    (this : @FeatureFormat.t Source) (source : Source) :
  (get (FeatureFormat.getReadOptions this source None) "dataProjection"
     = FeatureFormat.defaultDataProjection this /\
   get (FeatureFormat.getReadOptions this source None) "featureProjection"
     = FeatureFormat.defaultFeatureProjection this) /\
  forall o : gmap string JsValue,
    let result := FeatureFormat.getReadOptions this source (Some o) in
    get result "dataProjection"
      = (if truthy (get o "dataProjection") then get o "dataProjection"
         else FeatureFormat.readProjection this source) /\
    get result "featureProjection" = get o "featureProjection" /\
    dom result = {[ "dataProjection"; "featureProjection" ]}.
Proof.
  split.
  - unfold FeatureFormat.getReadOptions, FeatureFormat.adaptOptions, assign,
      get.
    split.
    + by rewrite lookup_insert_eq.
    + rewrite lookup_insert_ne by done. by rewrite lookup_singleton_eq.
  - intros o result. subst result.
    unfold FeatureFormat.getReadOptions, FeatureFormat.adaptOptions, assign.
    split; [|split].
    + unfold get at 1. erewrite lookup_union_Some_l; [done|].
      apply lookup_insert_eq.
    + unfold get at 1. erewrite lookup_union_Some_l; [done|].
      rewrite lookup_insert_ne by done. apply lookup_singleton_eq.
    + rewrite dom_union_L, !dom_insert_L, !dom_singleton_L. set_solver.
Qed.

(** * The loads of a whole run *)

Lemma pass_loads (q : TileQueue) (env : Env) :
  exists q' env' started,
    loadMoreTiles_ q env = Done (q', env') /\
    log env' = log env ++ loadEffects (uid q) started /\
    NoDup started /\
    (forall t, t ∈ started ->
       Tile_getState env t = IDLE /\ Tile_getState env' t = LOADING) /\
    (forall t, t ∉ started -> Tile_getState env' t = Tile_getState env t) /\
    (getCount q' + length started <= getCount q)%nat.
Proof.
  destruct (loadMoreTiles__Done q env) as (q' & env' & n & Hl & Hd).
  destruct (drains_startedSoFar _ _ _ _ _ _ Hd)
    as (started & _ & Hlog & Hnd & Hn & Hls & Hst & Hfr & Hcnt).
  exists q', env', started. done.
Qed.

Lemma loadedTiles_loadEffects (u : QueueId) (started : list TileRef) :
  loadedTiles (loadEffects u started) = started.
Proof.
  unfold loadedTiles, loadEffects.
  induction started as [|t ts IH]; [done|].
  rewrite bind_cons, omap_app, IH. done.
Qed.

Lemma loadedTiles_pass (l : list Effect) (u : QueueId)
    (started : list TileRef) :
  loadedTiles (l ++ loadEffects u started) = loadedTiles l ++ started.
Proof.
  unfold loadedTiles. rewrite omap_app.
  fold (loadedTiles (loadEffects u started)).
  by rewrite loadedTiles_loadEffects.
Qed.

Lemma loadedTiles_completion (env : Env) (t : TileRef) (u u' : QueueId) :
  loadedTiles
    (log (call_tileChangeCallback (goog_events_unlisten env t u) u'))
  = loadedTiles (log env).
Proof.
  unfold loadedTiles. simpl. rewrite !omap_app. simpl.
  by rewrite !app_nil_r.
Qed.

Lemma loadCalls_length (env : Env) :
  loadCalls env = length (loadedTiles (log env)).
Proof.
  unfold loadCalls, loadedTiles.
  induction (log env) as [|e l IH]; [done|].
  destruct e; simpl; rewrite ?IH; done.
Qed.

Lemma enqueue_getCount_le_S (b : PriorityQueue.t) (el : Element) :
  (PriorityQueue.getCount (PriorityQueue.enqueue b el)
   <= S (PriorityQueue.getCount b))%nat.
Proof.
  destruct (PriorityQueue.indexMap_ b !! PriorityQueue.keyFunction_ b el)
    eqn:Hl.
  - rewrite PriorityQueueFacts.enqueue_queued by eauto. lia.
  - rewrite PriorityQueueFacts.enqueue_fresh_getCount by done. lia.
Qed.

(** ** Never more loads than elements *)

Lemma pass_conserves (q : TileQueue) (env : Env) :
  exists q' env',
    loadMoreTiles_ q env = Done (q', env') /\
    (loadCalls env' + getCount q' <= loadCalls env + getCount q)%nat.
Proof.
  destruct (pass_loads q env)
    as (q' & env' & started & Hl & Hlog & _ & _ & _ & Hcnt).
  exists q', env'. split; [done|].
  rewrite !loadCalls_length, Hlog, loadedTiles_pass, length_app. lia.
Qed.

Lemma step_conserves (q : TileQueue) (env : Env) (ev : Event) :
  exists q' env',
    step (q, env) ev = Done (q', env') /\
    (loadCalls env' + getCount q'
     <= loadCalls env + getCount q + enqueued [ev])%nat.
Proof.
  destruct ev as [el|M N|t s]; cbn [step].
  - unfold enqueue.
    destruct (pass_conserves
                (set_base q (PriorityQueue.enqueue (base q) el)) env)
      as (q' & env' & Hl & Hle).
    exists q', env'. split; [done|].
    pose proof (enqueue_getCount_le_S (base q) el).
    unfold enqueued, getCount in *. simpl in *. lia.
  - unfold loadMoreTiles.
    destruct (pass_conserves (set_budget q M N) env)
      as (q' & env' & Hl & Hle).
    exists q', env'. split; [done|].
    unfold enqueued, getCount in *. simpl in *. lia.
  - unfold Tile_dispatchChange, handleTileChange.
    repeat case_decide; cbv zeta.
    + match goal with
      | |- context [loadMoreTiles_ ?q0 ?env0] =>
          destruct (pass_conserves q0 env0) as (q' & env' & Hl & Hle)
      end.
      exists q', env'. split; [done|].
      rewrite !loadCalls_length, loadedTiles_completion in Hle.
      rewrite !loadCalls_length.
      unfold enqueued, getCount in *. simpl in *. lia.
    + match goal with
      | |- context [loadMoreTiles_ ?q0 ?env0] =>
          destruct (pass_conserves q0 env0) as (q' & env' & Hl & Hle)
      end.
      exists q', env'. split; [done|].
      unfold enqueued, getCount, loadCalls in *. simpl in *. lia.
    + eexists _, _. split; [done|].
      unfold enqueued, getCount, loadCalls. simpl. lia.
Qed.

Lemma enqueued_cons (ev : Event) (evs : list Event) :
  enqueued (ev :: evs) = (enqueued [ev] + enqueued evs)%nat.
Proof. unfold enqueued. simpl. destruct ev; simpl; lia. Qed.

(** X12.  Whatever happens, the queue starts no more loads than it holds
    and is handed elements: over any sequence of events, the loads started
    plus the elements still queued are at most the elements queued at the
    start plus the number of enqueues. *)
Theorem loads_bounded_by_elements (evs : list Event) (q : TileQueue)
    (env : Env) :
  exists q' env',
    run evs (q, env) = Done (q', env') /\
    (loadCalls env' + getCount q'
     <= loadCalls env + getCount q + enqueued evs)%nat.
Proof.
  revert q env. induction evs as [|ev evs IH]; intros q env.
  { exists q, env. split; [done|]. unfold enqueued. simpl. lia. }
  destruct (step_conserves q env ev) as (q1 & env1 & Hs & Hle1).
  destruct (IH q1 env1) as (q' & env' & Hr & Hle).
  exists q', env'. split.
  { cbn [run]. rewrite Hs. exact Hr. }
  rewrite enqueued_cons. lia.
Qed.

(** ** No tile is loaded twice *)

Lemma loadedOnce_pass (q : TileQueue) (env : Env) :
  loadedOnce env ->
  exists q' env',
    loadMoreTiles_ q env = Done (q', env') /\ loadedOnce env'.
Proof.
  intros [Hnd Hni].
  destruct (pass_loads q env)
    as (q' & env' & started & Hl & Hlog & Hnds & Hst & Hfr & _).
  exists q', env'. split; [done|]. unfold loadedOnce.
  rewrite Hlog, loadedTiles_pass. split.
  - apply NoDup_app. split; [done|]. split; [|done].
    intros t Hin Hin'. destruct (Hst t Hin') as [Hi _]. by apply (Hni t).
  - intros t Hin. destruct (decide (t ∈ started)) as [Hs|Hs].
    + destruct (Hst t Hs) as [_ ->]. done.
    + rewrite (Hfr t Hs). apply Hni.
      apply elem_of_app in Hin as [Hin|Hin]; done.
Qed.

Lemma loadedOnce_setState (env : Env) (t : TileRef) (s : TileState) :
  loadedOnce env -> s <> IDLE -> loadedOnce (Tile_setState env t s).
Proof.
  intros [Hnd Hni] Hs. split; [done|]. simpl. intros t' Hin.
  destruct (decide (t' = t)) as [->|Hne].
  - by rewrite getState_setState_eq.
  - rewrite getState_setState_ne by done. by apply Hni.
Qed.

Lemma loadedOnce_completion (env : Env) (t : TileRef) (u : QueueId) :
  loadedOnce env ->
  loadedOnce (call_tileChangeCallback (goog_events_unlisten env t u) u).
Proof.
  intros [Hnd Hni]. unfold loadedOnce.
  rewrite loadedTiles_completion. done.
Qed.

Lemma loadedOnce_step (q : TileQueue) (env : Env) (ev : Event) :
  loadedOnce env ->
  match ev with TileChange _ s => s <> IDLE | _ => True end ->
  exists q' env', step (q, env) ev = Done (q', env') /\ loadedOnce env'.
Proof.
  intros Ho Hev. destruct ev as [el|M N|t s]; cbn [step].
  - by apply loadedOnce_pass.
  - by apply loadedOnce_pass.
  - unfold Tile_dispatchChange, handleTileChange.
    pose proof (loadedOnce_setState env t s Ho Hev) as Ho1.
    repeat case_decide. all: cbv zeta.
    + by apply loadedOnce_pass, loadedOnce_completion.
    + by apply loadedOnce_pass.
    + eexists _, _. done.
Qed.

(** X13.  As long as no tile is put back to Idle, no tile is loaded twice:
    in a store where every load so far was of a different tile, none of
    them Idle (an empty log, say), the tiles whose [load()] was called are
    pairwise different after any sequence of enqueues, budget changes and
    tile changes, however often a tile is enqueued. *)
Theorem no_tile_loaded_twice (evs : list Event) (q : TileQueue) (env : Env) :
  loadedOnce env ->
  noTileReset evs ->
  exists q' env',
    run evs (q, env) = Done (q', env') /\
    NoDup (loadedTiles (log env')) /\
    forall t, t ∈ loadedTiles (log env') -> Tile_getState env' t <> IDLE.
Proof.
  revert q env. induction evs as [|ev evs IH]; intros q env Ho Hevs.
  { exists q, env. by destruct Ho. }
  apply Forall_cons in Hevs as [Hev Hevs].
  destruct (loadedOnce_step q env ev Ho Hev) as (q1 & env1 & Hs & Ho1).
  destruct (IH q1 env1 Ho1 Hevs) as (q' & env' & Hr & Hres).
  exists q', env'. split; [|done]. cbn [run]. rewrite Hs. exact Hr.
Qed.

Lemma no_tile_loaded_twice_witness :
  loadedOnce Env_empty /\
  noTileReset insistentDay /\
  exists q' env',
    run insistentDay (new 1%nat wantAll, Env_empty) = Done (q', env') /\
    NoDup (loadedTiles (log env')) /\
    loadedTiles (log env') = [1; 2]%nat.
Proof.
  assert (Ho : loadedOnce Env_empty).
  { split; [apply NoDup_nil_2|]. intros t Hin. by apply elem_of_nil in Hin. }
  assert (Hb : noTileReset insistentDay).
  { unfold noTileReset, insistentDay.
    repeat (apply Forall_cons; split; [first [exact I|discriminate]|]).
    apply Forall_nil_2. }
  split; [exact Ho|]. split; [exact Hb|].
  destruct (no_tile_loaded_twice insistentDay (new 1%nat wantAll) Env_empty
              Ho Hb) as (q' & env' & Hr & Hnd & _).
  exists q', env'. split; [exact Hr|]. split; [exact Hnd|].
  vm_compute in Hr. injection Hr as _ <-. reflexivity.
Defined.

(** X14.  Two queues fed the same elements, whatever their budgets, heaps
    and priority functions, never load a tile twice between them: in a
    store where every load so far was of a different tile, none of them
    Idle, the tiles whose [load()] was called are still pairwise different
    after each element was enqueued into the first queue and then into the
    second. *)
Theorem shared_tiles_loaded_once (els : list Element) (q1 q2 : TileQueue)
    (env : Env) :
  loadedOnce env ->
  exists q1' q2' env',
    enqueueBoth els (q1, q2, env) = Done (q1', q2', env') /\
    NoDup (loadedTiles (log env')) /\
    forall t, t ∈ loadedTiles (log env') -> Tile_getState env' t <> IDLE.
Proof.
  revert q1 q2 env. induction els as [|el rest IH]; intros q1 q2 env Ho.
  { exists q1, q2, env. by destruct Ho. }
  cbn [enqueueBoth]. unfold enqueue.
  destruct (loadedOnce_pass
              (set_base q1 (PriorityQueue.enqueue (base q1) el)) env Ho)
    as (q1' & env1 & Hl1 & Ho1).
  rewrite Hl1. cbn [mbind Outcome_bind].
  destruct (loadedOnce_pass
              (set_base q2 (PriorityQueue.enqueue (base q2) el)) env1 Ho1)
    as (q2' & env2 & Hl2 & Ho2).
  rewrite Hl2. by apply IH.
Qed.

Lemma shared_tiles_loaded_once_witness :
  loadedOnce Env_empty /\
  exists q1' q2' env',
    enqueueBoth (elementsFrom 1 20)
      (set_budget (new 1%nat wantAll) 2 2,
       set_budget (new 2%nat wantAll) 2 2, Env_empty)
      = Done (q1', q2', env') /\
    NoDup (loadedTiles (log env')) /\
    loadedTiles (log env') = [1; 2; 3; 4]%nat.
Proof.
  assert (Ho : loadedOnce Env_empty).
  { split; [apply NoDup_nil_2|]. intros t Hin. by apply elem_of_nil in Hin. }
  split; [exact Ho|].
  destruct (shared_tiles_loaded_once (elementsFrom 1 20)
              (set_budget (new 1%nat wantAll) 2 2)
              (set_budget (new 2%nat wantAll) 2 2) Env_empty Ho)
    as (q1' & q2' & env' & Hr & Hnd & _).
  exists q1', q2', env'. split; [exact Hr|]. split; [exact Hnd|].
  vm_compute in Hr. injection Hr as _ _ <-. reflexivity.
Defined.
